(** * Session-aggregation core of the WeCom channel plugin

    A shallow embedding of [StreamStore], [ActiveReplyStore] and
    [MonitorState] (monitor state module), with the properties of the
    stream registry, the debounce aggregator and the reply-address store.

    Conventions of the embedding:
    - a JS [Map<string, V>] is a [gmap string V]; the [for ... of
      map.entries()] loops of [prune] only delete the entry being visited
      (and entries of another map), so they are folds over the entries of
      the map as it was when the loop started;
    - a JS number holding a millisecond timestamp is a [Z];
    - [Date.now()] and [crypto.randomBytes(16).toString("hex")] are inputs
      of the operation that reads them;
    - an optional field or argument ([x?: T], [T | undefined], [T | null])
      is an [option T]; JS truthiness is written out ([truthy_string],
      [truthy_number]);
    - strings are sequences of code units below 256. *)

From Stdlib Require Import ZArith Ascii String.
From stdpp Require Import gmap strings list fin_maps pretty.

Local Open Scope Z_scope.

(** ** JavaScript values used by the stores *)

Module Js.

(** [if (s)] on a string: the empty string is falsy. *)
Definition truthy_string (s : string) : bool :=
  match s with
  | EmptyString => false
  | String _ _ => true
  end.

(** [if (x)] on [string | undefined]. *)
Definition truthy_opt_string (o : option string) : bool :=
  match o with
  | Some s => truthy_string s
  | None => false
  end.

(** [if (x)] on [number | undefined]: [undefined] and [0] are falsy. *)
Definition truthy_number (o : option Z) : bool :=
  match o with
  | Some n => negb (n =? 0)
  | None => false
  end.

(** White space and line terminators of ECMAScript among the code units
    below 256: TAB, LF, VT, FF, CR, SP, NBSP. *)
Definition is_white_space (c : ascii) : bool :=
  let n := nat_of_ascii c in
  ((9 <=? n) && (n <=? 13) || (n =? 32) || (n =? 160))%nat.

Fixpoint trimStart (s : string) : string :=
  match s with
  | EmptyString => EmptyString
  | String c r => if is_white_space c then trimStart r else s
  end.

Fixpoint trimEnd (s : string) : string :=
  match s with
  | EmptyString => EmptyString
  | String c r =>
      match trimEnd r with
      | EmptyString => if is_white_space c then EmptyString else String c EmptyString
      | r' => String c r'
      end
  end.

(** [String.prototype.trim]. *)
Definition trim (s : string) : string := trimEnd (trimStart s).

(** A thrown value: an [Error] object with its message, or any other
    value with the string [String(err)] gives for it. *)
Inductive Thrown :=
| ErrorObject (message : string)
| OtherValue (asString : string).

(** [err instanceof Error ? err.message : String(err)]. *)
Definition error_text (err : Thrown) : string :=
  match err with
  | ErrorObject m => m
  | OtherValue s => s
  end.

End Js.

(** ** Constants *)

Module LIMITS.
Definition STREAM_TTL_MS : Z := 10 * 60 * 1000.
Definition ACTIVE_REPLY_TTL_MS : Z := 60 * 60 * 1000.
Definition DEFAULT_DEBOUNCE_MS : Z := 500.
Definition STREAM_MAX_BYTES : Z := 20480.
Definition REQUEST_TIMEOUT_MS : Z := 15000.
End LIMITS.

(** ** ActiveReplyStore *)

Module ActiveReplyState.
Record t := mk {
  response_url : string;
  proxyUrl : option string;
  createdAt : Z;
  usedAt : option Z;
  lastError : option string
}.

Definition set_usedAt (v : Z) (s : t) : t :=
  mk (response_url s) (proxyUrl s) (createdAt s) (Some v) (lastError s).

Definition set_lastError (v : string) (s : t) : t :=
  mk (response_url s) (proxyUrl s) (createdAt s) (usedAt s) (Some v).
End ActiveReplyState.

Module ActiveReplyStore.

Inductive Policy := once | multi.

Record t := mk {
  policy : Policy;
  activeReplies : gmap string ActiveReplyState.t
}.

(** [constructor(private policy: "once" | "multi" = "once")]. *)
Definition new (p : option Policy) : t :=
  mk (default once p) ∅.

(** The callback of [use]: it receives [{ responseUrl, proxyUrl }] and
    its promise resolves ([None]) or rejects with a value. *)
Definition Deliver := string → option string → option Js.Thrown.

(** How the promise of [use] settles; a rejection keeps the [throw]
    statement it comes from. *)
Inductive Outcome :=
| Resolved
| PolicyViolation (err : Js.Thrown)
| DeliveryFailure (err : Js.Thrown).

Record UseResult := mkUse {
  after : t;
  (* the calls of the callback, with their arguments *)
  delivered : list (string * option string);
  outcome : Outcome
}.

Definition store (streamId : string) (responseUrl proxyUrl : option string)
    (now : Z) (st : t) : t :=
  match Js.trim <$> responseUrl with
  | None => st
  | Some url =>
      if Js.truthy_string url then
        mk (policy st)
           (<[streamId := ActiveReplyState.mk url proxyUrl now None None]>
              (activeReplies st))
      else st
  end.

Definition getUrl (streamId : string) (st : t) : option string :=
  ActiveReplyState.response_url <$> activeReplies st !! streamId.

Definition policy_message (streamId : string) : string :=
  "response_url already used for stream " +:+ streamId +:+ " (Policy: once)".

(** [use], awaited to completion: [now] is the reading of [Date.now()]
    after the callback resolved. *)
Definition use (streamId : string) (fn : Deliver) (now : Z) (st : t) : UseResult :=
  match activeReplies st !! streamId with
  | None => mkUse st [] Resolved
  | Some state =>
      if negb (Js.truthy_string (ActiveReplyState.response_url state)) then
        mkUse st [] Resolved
      else
        match policy st, Js.truthy_number (ActiveReplyState.usedAt state) with
        | once, true =>
            mkUse st [] (PolicyViolation (Js.ErrorObject (policy_message streamId)))
        | _, _ =>
            let url := ActiveReplyState.response_url state in
            let proxy := ActiveReplyState.proxyUrl state in
            match fn url proxy with
            | None =>
                mkUse (mk (policy st)
                          (<[streamId := ActiveReplyState.set_usedAt now state]>
                             (activeReplies st)))
                      [(url, proxy)] Resolved
            | Some err =>
                mkUse (mk (policy st)
                          (<[streamId :=
                               ActiveReplyState.set_lastError (Js.error_text err) state]>
                             (activeReplies st)))
                      [(url, proxy)] (DeliveryFailure err)
            end
        end
  end.

Definition prune_body (cutoff : Z) (m : gmap string ActiveReplyState.t)
    (e : string * ActiveReplyState.t) : gmap string ActiveReplyState.t :=
  if bool_decide (ActiveReplyState.createdAt e.2 < cutoff) then delete e.1 m else m.

Definition prune (now : Z) (st : t) : t :=
  let cutoff := now - LIMITS.ACTIVE_REPLY_TTL_MS in
  mk (policy st)
     (foldl (prune_body cutoff) (activeReplies st) (map_to_list (activeReplies st))).

End ActiveReplyStore.

(** ** Types of the webhook layer

    [WecomWebhookTarget] and [WecomInboundMessage] are declared outside the
    monitor state module; the stores only read [msg.msgid]. The flush
    handler is a callback of the caller: the embedding keeps which handler
    is registered and records its calls. *)

Class WecomTypes := {
  WecomWebhookTarget : Type;
  WecomInboundMessage : Type;
  inbound_msgid : WecomInboundMessage → option string;
  FlushHandler : Type
}.

Module StreamState.
Record t := mk {
  streamId : string;
  msgid : option string;
  createdAt : Z;
  updatedAt : Z;
  started : bool;
  finished : bool;
  content : string
}.

Definition set_updatedAt (v : Z) (s : t) : t :=
  mk (streamId s) (msgid s) (createdAt s) v (started s) (finished s) (content s).

Definition set_started (v : bool) (s : t) : t :=
  mk (streamId s) (msgid s) (createdAt s) (updatedAt s) v (finished s) (content s).

Definition set_finished (v : bool) (s : t) : t :=
  mk (streamId s) (msgid s) (createdAt s) (updatedAt s) (started s) v (content s).
End StreamState.

Module PendingInbound.
Section Types.
Context `{WecomTypes}.

Record t := mk {
  streamId : string;
  target : WecomWebhookTarget;
  msg : WecomInboundMessage;
  contents : list string;
  msgids : list string;
  nonce : string;
  timestamp : string;
  createdAt : Z;
  (* the handle [setTimeout] returned, or [null] *)
  timeout : option nat
}.

Definition set_contents (v : list string) (p : t) : t :=
  mk (streamId p) (target p) (msg p) v (msgids p) (nonce p) (timestamp p)
     (createdAt p) (timeout p).

Definition set_msgids (v : list string) (p : t) : t :=
  mk (streamId p) (target p) (msg p) (contents p) v (nonce p) (timestamp p)
     (createdAt p) (timeout p).

Definition set_timeout (v : option nat) (p : t) : t :=
  mk (streamId p) (target p) (msg p) (contents p) (msgids p) (nonce p)
     (timestamp p) (createdAt p) v.
End Types.
End PendingInbound.

(** The argument object of [addPendingMessage]. *)
Module PendingParams.
Section Types.
Context `{WecomTypes}.

Record t := mk {
  pendingKey : string;
  target : WecomWebhookTarget;
  msg : WecomInboundMessage;
  msgContent : string;
  nonce : string;
  timestamp : string;
  debounceMs : option Z
}.
End Types.
End PendingParams.

(** ** StreamStore *)

Module StreamStore.
Section Store.
Context `{WecomTypes}.

(** A timer armed by [setTimeout(() => this.flushPending(pendingKey),
    effectiveDebounceMs)]: the key its callback flushes and its delay. *)
Record Timer := mkTimer {
  timerKey : string;
  timerDelay : Z
}.

(** The four fields of the class, and the part of the host the store
    acts on: the timers that are armed (by handle), the next handle
    [setTimeout] returns, and the calls of the flush handler so far. *)
Record t := mk {
  streams : gmap string StreamState.t;
  msgidToStreamId : gmap string string;
  pendingInbounds : gmap string PendingInbound.t;
  onFlush : option FlushHandler;
  timers : gmap nat Timer;
  nextTimer : nat;
  flushed : list (FlushHandler * PendingInbound.t)
}.

Definition new : t := mk ∅ ∅ ∅ None ∅ 0%nat [].

Definition set_streams v (w : t) : t :=
  mk v (msgidToStreamId w) (pendingInbounds w) (onFlush w) (timers w)
     (nextTimer w) (flushed w).

Definition set_msgidToStreamId v (w : t) : t :=
  mk (streams w) v (pendingInbounds w) (onFlush w) (timers w)
     (nextTimer w) (flushed w).

Definition set_pendingInbounds v (w : t) : t :=
  mk (streams w) (msgidToStreamId w) v (onFlush w) (timers w)
     (nextTimer w) (flushed w).

Definition set_flushed v (w : t) : t :=
  mk (streams w) (msgidToStreamId w) (pendingInbounds w) (onFlush w) (timers w)
     (nextTimer w) v.

(** [setTimeout]: a fresh handle, the timer armed under it. *)
Definition setTimeout (key : string) (delay : Z) (w : t) : nat * t :=
  (nextTimer w,
   mk (streams w) (msgidToStreamId w) (pendingInbounds w) (onFlush w)
      (<[nextTimer w := mkTimer key delay]> (timers w))
      (S (nextTimer w)) (flushed w)).

(** [clearTimeout]: the timer is disarmed; nothing happens for a timer
    that fired or was cleared before. *)
Definition clearTimeout (h : nat) (w : t) : t :=
  mk (streams w) (msgidToStreamId w) (pendingInbounds w) (onFlush w)
     (delete h (timers w)) (nextTimer w) (flushed w).

Definition setFlushHandler (handler : FlushHandler) (w : t) : t :=
  mk (streams w) (msgidToStreamId w) (pendingInbounds w) (Some handler)
     (timers w) (nextTimer w) (flushed w).

(** [createStream]: [streamId] is what [crypto.randomBytes(16)
    .toString("hex")] returned, [clock 0] and [clock 1] the two
    readings of [Date.now()]. *)
Definition createStream (streamId : string) (clock : nat → Z)
    (params_msgid : option string) (w : t) : string * t :=
  let w1 :=
    match params_msgid with
    | Some m =>
        if Js.truthy_string m
        then set_msgidToStreamId (<[m := streamId]> (msgidToStreamId w)) w
        else w
    | None => w
    end in
  (streamId,
   set_streams
     (<[streamId :=
          StreamState.mk streamId params_msgid (clock 0%nat) (clock 1%nat)
            false false ""]> (streams w1)) w1).

Definition getStream (streamId : string) (w : t) : option StreamState.t :=
  streams w !! streamId.

Definition getStreamByMsgId (msgid : string) (w : t) : option string :=
  msgidToStreamId w !! msgid.

(** A mutator changes the record it is given in place and returns, or
    throws after the changes it made so far. *)
Definition Mutator := StreamState.t → StreamState.t * option Js.Thrown.

(** [updateStream]: the result carries the exception that escapes, if
    any; [now] is the reading of [Date.now()] after the mutator. *)
Definition updateStream (streamId : string) (mutator : Mutator) (now : Z)
    (w : t) : t * option Js.Thrown :=
  match streams w !! streamId with
  | Some state =>
      match mutator state with
      | (state', None) =>
          (set_streams (<[streamId := StreamState.set_updatedAt now state']>
                          (streams w)) w, None)
      | (state', Some err) =>
          (set_streams (<[streamId := state']> (streams w)) w, Some err)
      end
  | None => (w, None)
  end.

Definition markStarted (streamId : string) (now : Z) (w : t) : t * option Js.Thrown :=
  updateStream streamId (λ s, (StreamState.set_started true s, None)) now w.

Definition markFinished (streamId : string) (now : Z) (w : t) : t * option Js.Thrown :=
  updateStream streamId (λ s, (StreamState.set_finished true s, None)) now w.

(** [msg.msgid ? [msg.msgid] : []], also what [push] adds. *)
Definition msgid_list (m : WecomInboundMessage) : list string :=
  match inbound_msgid m with
  | Some i => if Js.truthy_string i then [i] else []
  | None => []
  end.

(** [addPendingMessage]: [streamId] and [clock] are read only when a
    group is created ([clock 2] is the group's [createdAt]). *)
Definition addPendingMessage (params : PendingParams.t) (streamId : string)
    (clock : nat → Z) (w : t) : (string * bool) * t :=
  let pendingKey := PendingParams.pendingKey params in
  let effectiveDebounceMs :=
    default LIMITS.DEFAULT_DEBOUNCE_MS (PendingParams.debounceMs params) in
  match pendingInbounds w !! pendingKey with
  | Some existing =>
      let e1 := PendingInbound.set_contents
                  (PendingInbound.contents existing ++ [PendingParams.msgContent params])
                  existing in
      let e2 := PendingInbound.set_msgids
                  (PendingInbound.msgids e1 ++ msgid_list (PendingParams.msg params))
                  e1 in
      let w1 := match PendingInbound.timeout e2 with
                | Some h => clearTimeout h w
                | None => w
                end in
      let '(h, w2) := setTimeout pendingKey effectiveDebounceMs w1 in
      let e3 := PendingInbound.set_timeout (Some h) e2 in
      ((PendingInbound.streamId existing, false),
       set_pendingInbounds (<[pendingKey := e3]> (pendingInbounds w2)) w2)
  | None =>
      let '(sid, w1) :=
        createStream streamId clock (inbound_msgid (PendingParams.msg params)) w in
      let createdAt := clock 2%nat in
      let '(h, w2) := setTimeout pendingKey effectiveDebounceMs w1 in
      let pending :=
        PendingInbound.mk sid (PendingParams.target params) (PendingParams.msg params)
          [PendingParams.msgContent params] (msgid_list (PendingParams.msg params))
          (PendingParams.nonce params) (PendingParams.timestamp params)
          createdAt (Some h) in
      ((sid, true),
       set_pendingInbounds (<[pendingKey := pending]> (pendingInbounds w2)) w2)
  end.

(** [flushPending]; the handler is called with the record once its
    [timeout] field is reset. *)
Definition flushPending (pendingKey : string) (w : t) : t :=
  match pendingInbounds w !! pendingKey with
  | None => w
  | Some pending =>
      let w1 := set_pendingInbounds (delete pendingKey (pendingInbounds w)) w in
      let '(pending', w2) :=
        match PendingInbound.timeout pending with
        | Some h => (PendingInbound.set_timeout None pending, clearTimeout h w1)
        | None => (pending, w1)
        end in
      match onFlush w2 with
      | Some handler => set_flushed (flushed w2 ++ [(handler, pending')]) w2
      | None => w2
      end
  end.

(** The host runs the callback of an armed timer, once: the timer [h]
    fires. A timer that is not armed (cleared, or fired before) does
    not fire. *)
Definition fireTimer (h : nat) (w : t) : t :=
  match timers w !! h with
  | None => w
  | Some tm => flushPending (timerKey tm) (clearTimeout h w)
  end.

(** The three loops of [prune]. *)
Definition prune_streams_body (streamCutoff : Z)
    (acc : gmap string StreamState.t * gmap string string)
    (e : string * StreamState.t) : gmap string StreamState.t * gmap string string :=
  let '(id, state) := e in
  if bool_decide (StreamState.updatedAt state < streamCutoff) then
    (delete id acc.1,
     match StreamState.msgid state with
     | Some m =>
         if Js.truthy_string m then
           if bool_decide (acc.2 !! m = Some id) then delete m acc.2 else acc.2
         else acc.2
     | None => acc.2
     end)
  else acc.

Definition prune_index_body (live : gmap string StreamState.t)
    (acc : gmap string string) (e : string * string) : gmap string string :=
  let '(msgid, id) := e in
  match live !! id with
  | None => delete msgid acc
  | Some _ => acc
  end.

Definition prune_pending_body (now : Z)
    (acc : gmap string PendingInbound.t * gmap nat Timer)
    (e : string * PendingInbound.t) : gmap string PendingInbound.t * gmap nat Timer :=
  let '(key, pending) := e in
  if bool_decide (now - PendingInbound.createdAt pending > LIMITS.STREAM_TTL_MS) then
    (delete key acc.1,
     match PendingInbound.timeout pending with
     | Some h => delete h acc.2
     | None => acc.2
     end)
  else acc.

Definition prune (now : Z) (w : t) : t :=
  let streamCutoff := now - LIMITS.STREAM_TTL_MS in
  let '(streams1, index1) :=
    foldl (prune_streams_body streamCutoff) (streams w, msgidToStreamId w)
          (map_to_list (streams w)) in
  let index2 := foldl (prune_index_body streams1) index1 (map_to_list index1) in
  let '(pending3, timers3) :=
    foldl (prune_pending_body now) (pendingInbounds w, timers w)
          (map_to_list (pendingInbounds w)) in
  mk streams1 index2 pending3 (onFlush w) timers3 (nextTimer w) (flushed w).

End Store.
End StreamStore.

(** ** MonitorState *)

Module MonitorState.
Section State.
Context `{WecomTypes}.

Record t := mk {
  streamStore : StreamStore.t;
  activeReplyStore : ActiveReplyStore.t;
  (* the interval of the sweep that is running, if one is *)
  pruneInterval : option Z
}.

(** The field initialisers of the class. *)
Definition new : t :=
  mk StreamStore.new (ActiveReplyStore.new (Some ActiveReplyStore.multi)) None.

(** [startPruning(intervalMs = 60_000)]. *)
Definition startPruning (intervalMs : option Z) (s : t) : t :=
  match pruneInterval s with
  | Some _ => s
  | None => mk (streamStore s) (activeReplyStore s) (Some (default 60000 intervalMs))
  end.

Definition stopPruning (s : t) : t :=
  match pruneInterval s with
  | Some _ => mk (streamStore s) (activeReplyStore s) None
  | None => s
  end.

(** A tick of the sweep: both stores are pruned with one reading of
    [Date.now()]. *)
Definition sweep (now : Z) (s : t) : t :=
  mk (StreamStore.prune now (streamStore s))
     (ActiveReplyStore.prune now (activeReplyStore s))
     (pruneInterval s).
End State.
End MonitorState.

(** [export const monitorState = new MonitorState()]. *)
Definition monitorState `{WecomTypes} : MonitorState.t := MonitorState.new.

(** ** Outbound adapter ([src/outbound.ts])

    The adapter calls collaborators that live outside the file (account
    and target resolution, the agent API client, the channel runtime,
    [fetch], the file system and [path]); they are fields of [Env], one
    function per collaborator, and the calls that reach the network or the
    disk are recorded in the order they are made. [console.log] and
    [console.error] are left out. *)

Module JsString.

(** One code unit of [toLowerCase], below 256: A-Z and the capital
    letters of Latin-1 (U+00C0-U+00DE but the multiplication sign). *)
Definition lower_unit (c : ascii) : ascii :=
  let n := nat_of_ascii c in
  if ((65 <=? n) && (n <=? 90) || (192 <=? n) && (n <=? 222) && negb (n =? 215))%nat
  then ascii_of_nat (n + 32) else c.

Fixpoint toLowerCase (s : string) : string :=
  match s with
  | EmptyString => EmptyString
  | String c r => String (lower_unit c) (toLowerCase r)
  end.

(** A code unit under the [i] flag of a regular expression without the
    [u] flag, for a pattern of ASCII letters: only ASCII letters fold. *)
Definition fold_ascii (c : ascii) : ascii :=
  let n := nat_of_ascii c in
  if ((65 <=? n) && (n <=? 90))%nat then ascii_of_nat (n + 32) else c.

(** [s.startsWith(p)]. *)
Fixpoint startsWith (p s : string) : bool :=
  match p, s with
  | EmptyString, _ => true
  | String a p', String b s' => if Ascii.eqb a b then startsWith p' s' else false
  | String _ _, EmptyString => false
  end.

(** Whether [s] starts with the lower-case ASCII pattern [p], letters
    compared without case. *)
Fixpoint startsWith_ci (p s : string) : bool :=
  match p, s with
  | EmptyString, _ => true
  | String a p', String b s' =>
      if Ascii.eqb a (fold_ascii b) then startsWith_ci p' s' else false
  | String _ _, EmptyString => false
  end.

(** [s.slice(0, n)]. *)
Fixpoint slice0 (n : nat) (s : string) : string :=
  match n, s with
  | O, _ => EmptyString
  | S n', String c r => String c (slice0 n' r)
  | S _, EmptyString => EmptyString
  end.

(** [s.slice(1)]. *)
Definition slice1 (s : string) : string :=
  match s with
  | EmptyString => EmptyString
  | String _ r => r
  end.

(** [s.split("/").pop()], with [acc] the segment read so far. *)
Fixpoint lastSegment_go (acc s : string) : string :=
  match s with
  | EmptyString => acc
  | String c r =>
      if Ascii.eqb c "/" then lastSegment_go EmptyString r
      else lastSegment_go (acc +:+ String c EmptyString) r
  end.

Definition lastSegment (s : string) : string := lastSegment_go EmptyString s.

End JsString.

Module Outbound.

(** What [resolveWecomTarget] returns, as [sendText] destructures it. *)
Record WecomTarget := mkTarget {
  touser : option string;
  toparty : option string;
  totag : option string;
  chatid : option string
}.

Inductive MediaType := image | voice | video | file.

(** The errors the adapter raises itself, and the failures of its
    collaborators, which it lets through. *)
Inductive OutboundError :=
| AgentNotConfigured             (* "WeCom outbound requires Agent mode. ..." *)
| TargetMissing                  (* "WeCom outbound requires a target ..." *)
| ChatIdUnsupported (chatId : string)
| MediaUrlMissing                (* "WeCom outbound requires mediaUrl." *)
| DownloadFailed (message : string)  (* `Failed to download media: ${res.status}` *)
| NotAFunction                   (* TypeError: contentType.startsWith is not a function *)
| Collaborator (err : Js.Thrown).

Record Receipt := mkReceipt {
  channel : string;
  messageId : string;
  timestamp : Z
}.

(** What [mimeTypes[ext]] evaluates to: a string of the table, a member
    the object literal inherits from [Object.prototype] (a function or an
    object), or [undefined]. *)
Inductive MimeLookup :=
| Own (contentType : string)
| Inherited
| Undefined.

Definition mimeTypes : list (string * string) :=
  [("jpg", "image/jpeg"); ("jpeg", "image/jpeg"); ("png", "image/png");
   ("gif", "image/gif"); ("webp", "image/webp"); ("bmp", "image/bmp");
   ("mp3", "audio/mpeg"); ("wav", "audio/wav"); ("amr", "audio/amr");
   ("mp4", "video/mp4"); ("pdf", "application/pdf"); ("doc", "application/msword");
   ("docx", "application/vnd.openxmlformats-officedocument.wordprocessingml.document");
   ("xls", "application/vnd.ms-excel");
   ("xlsx", "application/vnd.openxmlformats-officedocument.spreadsheetml.sheet")].

Fixpoint assoc (k : string) (l : list (string * string)) : option string :=
  match l with
  | [] => None
  | (k', v) :: l' => if String.eqb k k' then Some v else assoc k l'
  end.

(** The names of [Object.prototype] that are all lower case; the others
    hold a capital letter and [ext] is lower case. *)
Definition inherited_lower (k : string) : bool :=
  String.eqb k "constructor" || String.eqb k "__proto__".

Definition mimeLookup (ext : string) : MimeLookup :=
  match assoc ext mimeTypes with
  | Some v => Own v
  | None => if inherited_lower ext then Inherited else Undefined
  end.

(** [mimeTypes[ext] || "application/octet-stream"]: [None] when the value
    is not a string. *)
Definition localContentType (ext : string) : option string :=
  match mimeLookup ext with
  | Own v => Some (if Js.truthy_string v then v else "application/octet-stream")
  | Inherited => None
  | Undefined => Some "application/octet-stream"
  end.

(** The [mediaType] chain of [startsWith] tests. *)
Definition mediaTypeOf (contentType : string) : MediaType :=
  if JsString.startsWith "image/" contentType then image
  else if JsString.startsWith "audio/" contentType then voice
  else if JsString.startsWith "video/" contentType then video
  else file.

(** [/^https?:\/\//i.test(mediaUrl)]. *)
Definition isRemoteUrl (mediaUrl : string) : bool :=
  JsString.startsWith_ci "http://" mediaUrl || JsString.startsWith_ci "https://" mediaUrl.

(** [urlPath.split("/").pop() || "media"]. *)
Definition remoteFilename (urlPath : string) : string :=
  let last := JsString.lastSegment urlPath in
  if Js.truthy_string last then last else "media".

(** The [title] and [description] spread into the media request. *)
Definition caption (mediaType : MediaType) (text : option string)
    : option (string * string) :=
  match mediaType, Js.trim <$> text with
  | video, Some trimmed =>
      if Js.truthy_string trimmed
      then Some (JsString.slice0 64 trimmed, JsString.slice0 512 trimmed)
      else None
  | _, _ => None
  end.

Section Adapter.
Context {Cfg To Agent Buffer : Type}.

Record TextRequest := mkTextRequest {
  text_agent : Agent;
  text_toUser : option string;
  text_toParty : option string;
  text_toTag : option string;
  text_chatId : option string;
  text_text : string
}.

Record UploadRequest := mkUploadRequest {
  upload_agent : Agent;
  upload_type : MediaType;
  upload_buffer : Buffer;
  upload_filename : string
}.

Record MediaRequest := mkMediaRequest {
  media_agent : Agent;
  media_toUser : option string;
  media_toParty : option string;
  media_toTag : option string;
  media_chatId : option string;
  media_mediaId : string;
  media_mediaType : MediaType;
  media_caption : option (string * string)
}.

(** The response of [fetch], as far as [sendMedia] reads it. *)
Record Response := mkResponse {
  ok : bool;
  status : Z;
  arrayBuffer : Js.Thrown + Buffer;
  contentTypeHeader : option string
}.

Record Env := mkEnv {
  (* [resolveWecomAccounts(cfg).agent] *)
  resolveAgent : Cfg → option Agent;
  (* the truthiness of [account.configured] *)
  configured : Agent → bool;
  resolveWecomTarget : To → option WecomTarget;
  sendAgentText : TextRequest → option Js.Thrown;
  fetch : string → Js.Thrown + Response;
  (* [new URL(mediaUrl).pathname] *)
  urlPathname : string → Js.Thrown + string;
  readFile : string → Js.Thrown + Buffer;
  basename : string → string;
  extname : string → string;
  uploadMedia : UploadRequest → Js.Thrown + string;
  sendAgentMedia : MediaRequest → option Js.Thrown;
  (* [getWecomRuntime().channel.text.chunkText(text, limit)] *)
  chunkText : string → Z → Js.Thrown + list string
}.

(** The calls that leave the process. *)
Inductive Call :=
| CallSendText (req : TextRequest)
| CallFetch (url : string)
| CallReadFile (path : string)
| CallUpload (req : UploadRequest)
| CallSendMedia (req : MediaRequest).

(** A computation of the adapter: the calls it made, and its exception
    or its value. *)
Definition M (A : Type) : Type := list Call * (OutboundError + A).

Definition ret {A} (a : A) : M A := ([], inr a).

Definition throw {A} (e : OutboundError) : M A := ([], inl e).

Definition bind {A B} (m : M A) (f : A → M B) : M B :=
  match m with
  | (calls, inl e) => (calls, inl e)
  | (calls, inr a) => let '(calls', r) := f a in (calls ++ calls', r)
  end.

(** One call of a collaborator that may throw. *)
Definition perform {A} (c : Call) (r : Js.Thrown + A) : M A :=
  ([c], match r with
        | inl err => inl (Collaborator err)
        | inr a => inr a
        end).

(** A collaborator that stays in the process. *)
Definition lift {A} (r : Js.Thrown + A) : M A :=
  ([], match r with
       | inl err => inl (Collaborator err)
       | inr a => inr a
       end).

Definition unit_result (r : option Js.Thrown) : Js.Thrown + unit :=
  match r with
  | Some err => inl err
  | None => inr tt
  end.

Notation "'let!' x := m 'in' k" := (bind m (λ x, k))
  (at level 10, x name, m at level 100, k at level 200).

Variable env : Env.

Definition resolveAgentConfigOrThrow (cfg : Cfg) : M Agent :=
  match resolveAgent env cfg with
  | Some account => if configured env account then ret account
                    else throw AgentNotConfigured
  | None => throw AgentNotConfigured
  end.

(** The target checks [sendText] and [sendMedia] share. *)
Definition resolveTargetOrThrow (to : To) : M WecomTarget :=
  match resolveWecomTarget env to with
  | None => throw TargetMissing
  | Some target =>
      match chatid target with
      | Some c => if Js.truthy_string c then throw (ChatIdUnsupported c) else ret target
      | None => ret target
      end
  end.

(** [chunker]. *)
Definition chunker (text : string) (limit : Z) : list string :=
  match chunkText env text limit with
  | inr chunks => chunks
  | inl _ => [text]
  end.

(** [sendText]; [clock 0] and [clock 1] are the readings of [Date.now()]
    for [messageId] and [timestamp]. *)
Definition sendText (clock : nat → Z) (cfg : Cfg) (to : To) (text : string)
    : M Receipt :=
  let! agent := resolveAgentConfigOrThrow cfg in
  let! target := resolveTargetOrThrow to in
  let req := mkTextRequest agent (touser target) (toparty target) (totag target)
               (chatid target) text in
  let! sent := perform (CallSendText req) (unit_result (sendAgentText env req)) in
  ret (mkReceipt "wecom" ("agent-" +:+ pretty (clock 0%nat)) (clock 1%nat)).

(** The download branch: buffer, content type and file name. *)
Definition loadRemote (mediaUrl : string) : M (Buffer * string * string) :=
  let! res := perform (CallFetch mediaUrl) (fetch env mediaUrl) in
  if negb (ok res) then
    throw (DownloadFailed ("Failed to download media: " +:+ pretty (status res)))
  else
    let! buffer := lift (arrayBuffer res) in
    let contentType :=
      match contentTypeHeader res with
      | Some h => if Js.truthy_string h then h else "application/octet-stream"
      | None => "application/octet-stream"
      end in
    let! urlPath := lift (urlPathname env mediaUrl) in
    ret (buffer, contentType, remoteFilename urlPath).

(** The local-file branch. *)
Definition loadLocal (mediaUrl : string) : M (Buffer * string * string) :=
  let! buffer := perform (CallReadFile mediaUrl) (readFile env mediaUrl) in
  let filename := basename env mediaUrl in
  let ext := JsString.toLowerCase (JsString.slice1 (extname env mediaUrl)) in
  match localContentType ext with
  | Some contentType => ret (buffer, contentType, filename)
  | None => throw NotAFunction
  end.

(** [sendMedia]; [clock] as in [sendText]. *)
Definition sendMedia (clock : nat → Z) (cfg : Cfg) (to : To) (text : option string)
    (mediaUrl : option string) : M Receipt :=
  let! agent := resolveAgentConfigOrThrow cfg in
  let! target := resolveTargetOrThrow to in
  match mediaUrl with
  | None => throw MediaUrlMissing
  | Some url =>
      if negb (Js.truthy_string url) then throw MediaUrlMissing
      else
        let! loaded := (if isRemoteUrl url then loadRemote url else loadLocal url) in
        let '(buffer, contentType, filename) := loaded in
        let mediaType := mediaTypeOf contentType in
        let up := mkUploadRequest agent mediaType buffer filename in
        let! mediaId := perform (CallUpload up) (uploadMedia env up) in
        let req := mkMediaRequest agent (touser target) (toparty target) (totag target)
                     (chatid target) mediaId mediaType (caption mediaType text) in
        let! sent := perform (CallSendMedia req) (unit_result (sendAgentMedia env req)) in
        ret (mkReceipt "wecom" ("agent-media-" +:+ pretty (clock 0%nat)) (clock 1%nat))
  end.

End Adapter.

(** The constants of the adapter object. *)
Definition deliveryMode : string := "direct".
Definition chunkerMode : string := "text".
Definition textChunkLimit : Z := 20480.

End Outbound.

(** ** Runs of the stream store *)

Module StreamOps.
Section Ops.
Context `{WecomTypes}.
Import StreamStore.

(** What can happen to a store: the calls of its clients, and the host
    running the callback of a timer. *)
Inductive Op :=
| OpSetFlushHandler (handler : FlushHandler)
| OpCreateStream (streamId : string) (clock : nat → Z) (msgid : option string)
| OpUpdateStream (streamId : string) (mutator : Mutator) (now : Z)
| OpMarkStarted (streamId : string) (now : Z)
| OpMarkFinished (streamId : string) (now : Z)
| OpAddPendingMessage (params : PendingParams.t) (streamId : string) (clock : nat → Z)
| OpTimerFires (h : nat)
| OpPrune (now : Z).

Definition step (w : t) (op : Op) : t :=
  match op with
  | OpSetFlushHandler handler => setFlushHandler handler w
  | OpCreateStream sid clock msgid => (createStream sid clock msgid w).2
  | OpUpdateStream sid mutator now => (updateStream sid mutator now w).1
  | OpMarkStarted sid now => (markStarted sid now w).1
  | OpMarkFinished sid now => (markFinished sid now w).1
  | OpAddPendingMessage params sid clock => (addPendingMessage params sid clock w).2
  | OpTimerFires h => fireTimer h w
  | OpPrune now => prune now w
  end.

Definition run (ops : list Op) (w : t) : t := foldl step w ops.

(** One inbound event reaching [addPendingMessage], with what the call
    reads from the host. *)
Record Arrival := mkArrival {
  params : PendingParams.t;
  streamId : string;
  clock : nat → Z
}.

(** Arrivals one after the other, with what each call returned. *)
Fixpoint arrivals (l : list Arrival) (w : t) : list (string * bool) * t :=
  match l with
  | [] => ([], w)
  | a :: l' =>
      let '(r, w1) := addPendingMessage (params a) (streamId a) (clock a) w in
      let '(rs, w2) := arrivals l' w1 in
      (r :: rs, w2)
  end.

End Ops.
End StreamOps.

(** ** Runs of the reply-address store and sample data *)

Module ReplyOps.
Import ActiveReplyStore.

(** The calls a client of the store can make. *)
Inductive Op :=
| OpStore (streamId : string) (responseUrl proxyUrl : option string) (now : Z)
| OpUse (streamId : string) (fn : Deliver) (now : Z)
| OpPrune (now : Z).

Definition step (st : t) (op : Op) : t :=
  match op with
  | OpStore sid url proxy now => store sid url proxy now st
  | OpUse sid fn now => after (use sid fn now st)
  | OpPrune now => prune now st
  end.

Definition run (ops : list Op) (st : t) : t := foldl step st ops.
End ReplyOps.

Module Samples.
Definition deliverOk : ActiveReplyStore.Deliver := λ _ _, None.

Definition deliverFail : ActiveReplyStore.Deliver :=
  λ _ _, Some (Js.ErrorObject "boom").

(** Scenario C of the specification: a store with the default policy
    and one address bound. *)
Definition bound_once : ActiveReplyStore.t :=
  ActiveReplyStore.store "s1" (Some "https://reply.example/x") None 1000
    (ActiveReplyStore.new None).

(** The types of the webhook layer, for the examples: a target is a name,
    a message its id and its text, a flush handler a name. *)
Record Message := mkMessage {
  msgid : option string;
  text : string
}.

Definition types : WecomTypes :=
  {| WecomWebhookTarget := string;
     WecomInboundMessage := Message;
     inbound_msgid := msgid;
     FlushHandler := string |}.

Definition store0 : @StreamStore.t types :=
  @StreamStore.setFlushHandler types "agent" (@StreamStore.new types).

Definition arrival (content : string) (id : option string) (sid : string) (now : Z)
    : @StreamOps.Arrival types :=
  @StreamOps.mkArrival types
    (@PendingParams.mk types "u1" "bot" (mkMessage id content) content "n" "1700000000"
       (Some 500))
    sid (λ _, now).

(** Scenario B of the specification: "hello" then " world" for key "u1". *)
Definition hello_world : list (@StreamOps.Arrival types) :=
  [arrival "hello" (Some "m1") "aa01" 1000; arrival " world" (Some "m2") "aa02" 1100].

(** A store with one stream, last updated at 1000. *)
Definition one_stream : @StreamStore.t types :=
  (@StreamStore.createStream types "aa01" (λ _, 1000) (Some "m1") store0).2.
End Samples.

(** ** Predicates of the statements *)

Section Predicates.
Context `{WecomTypes}.
Import StreamStore.

Definition expired (cutoff : Z) (s : StreamState.t) : Prop :=
  StreamState.updatedAt s < cutoff.

#[export] Instance expired_dec cutoff s : Decision (expired cutoff s).
Proof. unfold expired. apply _. Defined.

(** What makes the first loop delete the stream [id]: an expired record
    under [id] among the entries visited. *)
Definition evicts (cutoff : Z) (l : list (string * StreamState.t))
    (id : string) : Prop :=
  ∃ s, (id, s) ∈ l ∧ expired cutoff s.

(** What makes the first loop delete the index entry [m ↦ id]: an
    expired record under [id] that carries the message id [m]. *)
Definition unbinds (cutoff : Z) (l : list (string * StreamState.t))
    (m id : string) : Prop :=
  ∃ s, (id, s) ∈ l ∧ expired cutoff s ∧ StreamState.msgid s = Some m ∧ m ≠ "".

(** What makes the second loop delete the index entry of [m]: an entry
    of [m] visited whose stream is missing. *)
Definition dangling (live : gmap string StreamState.t) (l : list (string * string))
    (m : string) : Prop :=
  ∃ id, (m, id) ∈ l ∧ live !! id = None.

(** A group the third loop drops. *)
Definition stale (now : Z) (p : PendingInbound.t) : Prop :=
  now - PendingInbound.createdAt p > LIMITS.STREAM_TTL_MS.

#[export] Instance stale_dec now p : Decision (stale now p).
Proof. unfold stale. apply _. Defined.

Definition drops (now : Z) (l : list (string * PendingInbound.t))
    (key : string) : Prop :=
  ∃ p, (key, p) ∈ l ∧ stale now p.

Definition disarms (now : Z) (l : list (string * PendingInbound.t))
    (h : nat) : Prop :=
  ∃ key p, (key, p) ∈ l ∧ stale now p ∧ PendingInbound.timeout p = Some h.

(** In a store reached from [new], every pending group holds the handle
    of an armed timer whose callback flushes the group's key, every armed
    timer belongs to the group of its key, and handles are below the next
    one to be given out. *)
Definition timers_consistent (w : t) : Prop :=
  (∀ key p, pendingInbounds w !! key = Some p →
     ∃ h tm, PendingInbound.timeout p = Some h ∧ timers w !! h = Some tm ∧
             timerKey tm = key) ∧
  (∀ h tm, timers w !! h = Some tm →
     (h < nextTimer w)%nat ∧
     ∃ p, pendingInbounds w !! timerKey tm = Some p ∧ PendingInbound.timeout p = Some h).

Definition arrival_key (a : StreamOps.Arrival) : string :=
  PendingParams.pendingKey (StreamOps.params a).

Definition arrival_content (a : StreamOps.Arrival) : string :=
  PendingParams.msgContent (StreamOps.params a).

Definition arrival_msgids (a : StreamOps.Arrival) : list string :=
  msgid_list (PendingParams.msg (StreamOps.params a)).

End Predicates.

(** ** Predicates of the further properties *)

Section StorePredicates.
Context `{WecomTypes}.
Import StreamStore.

(** Every entry of the index points at a stream of the stream map. *)
Definition index_live (w : t) : Prop :=
  ∀ m id, msgidToStreamId w !! m = Some id → is_Some (streams w !! id).

(** What a pending group holds from its creation on: at least one
    fragment, and no more message ids than fragments. *)
Definition payload_ok (p : PendingInbound.t) : Prop :=
  PendingInbound.contents p ≠ [] ∧
  (length (PendingInbound.msgids p) ≤ length (PendingInbound.contents p))%nat.

Definition payloads_ok (w : t) : Prop :=
  (∀ key p, pendingInbounds w !! key = Some p → payload_ok p) ∧
  (∀ hd p, (hd, p) ∈ flushed w → payload_ok p ∧ PendingInbound.timeout p = None).

(** The arrivals of a list that are for [key], in order. *)
Definition for_key (key : string) (l : list StreamOps.Arrival) : list StreamOps.Arrival :=
  filter (λ a, arrival_key a = key) l.

End StorePredicates.

Section ReplyPredicates.
Import ActiveReplyStore.

(** [use] called once per reading of the clock in [ts], with what each
    call gave. *)
Fixpoint uses (streamId : string) (fn : Deliver) (ts : list Z) (st : t)
    : list UseResult :=
  match ts with
  | [] => []
  | now :: ts' =>
      let r := use streamId fn now st in
      r :: uses streamId fn ts' (after r)
  end.

(** The calls of the callbacks during a run, each with the stream it was
    made for. *)
Fixpoint deliveries (ops : list ReplyOps.Op) (st : t)
    : list (string * (string * option string)) :=
  match ops with
  | [] => []
  | op :: ops' =>
      match op with
      | ReplyOps.OpUse sid fn now => map (pair sid) (delivered (use sid fn now st))
      | _ => []
      end ++ deliveries ops' (ReplyOps.step st op)
  end.

Definition rebinds (streamId : string) (op : ReplyOps.Op) : Prop :=
  match op with
  | ReplyOps.OpStore sid _ _ _ => sid = streamId
  | _ => False
  end.

(** Under [once], a record that was used stays used, or goes. *)
Definition spent (sid : string) (st : t) : Prop :=
  policy st = once ∧
  ∀ r, activeReplies st !! sid = Some r →
       Js.truthy_number (ActiveReplyState.usedAt r) = true.

End ReplyPredicates.

Section OutboundPredicates.
Import Outbound.
Context {Cfg To Agent Buffer : Type}.




(** The checks that come before any call: the agent account is
    configured, the target resolves and names no chat. *)
Definition guards_pass (env : @Env Cfg To Agent Buffer) (cfg : Cfg) (to : To) (agent : Agent)
    (target : WecomTarget) : Prop :=
  resolveAgent env cfg = Some agent ∧
  configured env agent = true ∧
  resolveWecomTarget env to = Some target ∧
  Js.truthy_opt_string (chatid target) = false.

(** The first call of [sendMedia] for a media URL: the download of a
    remote URL, or the read of a local path. *)
Definition load_call (url : string) : @Call Agent Buffer :=
  if isRemoteUrl url then CallFetch url else CallReadFile url.

End OutboundPredicates.

(** ** Sample data for the further properties *)

Module MoreSamples.

(** A store without a flush handler, with one group pending. *)
Definition unhandled : @StreamStore.t Samples.types :=
  (@StreamOps.arrivals Samples.types
     [Samples.arrival "hello" (Some "m1") "aa01" 1000] (@StreamStore.new Samples.types)).2.

(** A run with a flush: a handler, one arrival, its timer firing. *)
Definition flush_run : list (@StreamOps.Op Samples.types) :=
  [@StreamOps.OpSetFlushHandler Samples.types "agent";
   @StreamOps.OpAddPendingMessage Samples.types
     (@StreamOps.params Samples.types (Samples.arrival "hello" (Some "m1") "aa01" 1000))
     "aa01" (λ _, 1000);
   @StreamOps.OpTimerFires Samples.types 0%nat].

(** Arrivals for two keys, interleaved. *)
Definition other_key (content : string) (sid : string) : @StreamOps.Arrival Samples.types :=
  @StreamOps.mkArrival Samples.types
    (@PendingParams.mk Samples.types "u2" "bot" (Samples.mkMessage None content) content
       "n" "1700000000" None)
    sid (λ _, 1050).

Definition interleaved : list (@StreamOps.Arrival Samples.types) :=
  [Samples.arrival "hello" (Some "m1") "aa01" 1000; other_key "ping" "bb01";
   Samples.arrival " world" (Some "m2") "aa02" 1100; other_key "pong" "bb02"].

(** A reply-address store with the [multi] policy and one address. *)
Definition bound_multi : ActiveReplyStore.t :=
  ActiveReplyStore.store "s1" (Some "https://reply.example/x") None 1000
    (ActiveReplyStore.new (Some ActiveReplyStore.multi)).

(** Scenario C of the specification after its first [use]. *)
Definition used_once : ActiveReplyStore.t :=
  ActiveReplyStore.after
    (ActiveReplyStore.use "s1" Samples.deliverOk 2000 Samples.bound_once).

(** Collaborators of the outbound adapter: one configured agent, targets
    that are users, a network that is down, a disk with one file. *)
Definition env : @Outbound.Env unit string string string :=
  Outbound.mkEnv
    (λ _, Some "agent1")
    (λ _, true)
    (λ to, Some (Outbound.mkTarget (Some to) None None None))
    (λ _, None)
    (λ _, inl (Js.ErrorObject "fetch failed"))
    (λ _, inr "/")
    (λ _, inr "bytes")
    (λ _, "x.constructor")
    (λ _, ".constructor")
    (λ _, inr "media-1")
    (λ _, None)
    (λ text _, inr [text]).

End MoreSamples.

(** * Properties *)

(** ** JavaScript helpers *)

Lemma truthy_string_true (s : string) : Js.truthy_string s = true ↔ s ≠ "".
Proof. destruct s; simpl; split; congruence. Qed.

Lemma truthy_string_false (s : string) : Js.truthy_string s = false ↔ s = "".
Proof. destruct s; simpl; split; congruence. Qed.

Lemma truthy_number_true (o : option Z) :
  Js.truthy_number o = true ↔ ∃ n, o = Some n ∧ n ≠ 0.
Proof.
  destruct o as [n|]; simpl.
  - rewrite negb_true_iff, Z.eqb_neq. split; [eauto|]. by intros (? & [= <-] & ?).
  - split; [done|]. by intros (? & ? & ?).
Qed.

Example trim_inner_space : Js.trim "  a b
 " = "a b".
Proof. reflexivity. Qed.

Example trim_blank : Js.trim "   " = "".
Proof. reflexivity. Qed.

(** ** Reply-address store *)

Section ReplyAddress.
Import ActiveReplyStore.

Lemma store_bind sid u proxy now st :
  Js.trim u ≠ "" →
  store sid (Some u) proxy now st =
    mk (policy st)
       (<[sid := ActiveReplyState.mk (Js.trim u) proxy now None None]> (activeReplies st)).
Proof.
  intros Hu. unfold store. simpl.
  apply truthy_string_true in Hu. by rewrite Hu.
Qed.

Lemma use_fresh sid fn now st r :
  activeReplies st !! sid = Some r →
  ActiveReplyState.response_url r ≠ "" →
  Js.truthy_number (ActiveReplyState.usedAt r) = false →
  use sid fn now st =
    match fn (ActiveReplyState.response_url r) (ActiveReplyState.proxyUrl r) with
    | None =>
        mkUse (mk (policy st) (<[sid := ActiveReplyState.set_usedAt now r]> (activeReplies st)))
              [(ActiveReplyState.response_url r, ActiveReplyState.proxyUrl r)] Resolved
    | Some err =>
        mkUse (mk (policy st)
                  (<[sid := ActiveReplyState.set_lastError (Js.error_text err) r]>
                     (activeReplies st)))
              [(ActiveReplyState.response_url r, ActiveReplyState.proxyUrl r)]
              (DeliveryFailure err)
    end.
Proof.
  intros Hr Hu Hused. unfold use. rewrite Hr.
  apply truthy_string_true in Hu. rewrite Hu, Hused. simpl.
  by destruct (policy st).
Qed.

Lemma use_multi sid fn now st r :
  policy st = multi →
  activeReplies st !! sid = Some r →
  ActiveReplyState.response_url r ≠ "" →
  use sid fn now st =
    match fn (ActiveReplyState.response_url r) (ActiveReplyState.proxyUrl r) with
    | None =>
        mkUse (mk (policy st) (<[sid := ActiveReplyState.set_usedAt now r]> (activeReplies st)))
              [(ActiveReplyState.response_url r, ActiveReplyState.proxyUrl r)] Resolved
    | Some err =>
        mkUse (mk (policy st)
                  (<[sid := ActiveReplyState.set_lastError (Js.error_text err) r]>
                     (activeReplies st)))
              [(ActiveReplyState.response_url r, ActiveReplyState.proxyUrl r)]
              (DeliveryFailure err)
    end.
Proof.
  intros Hp Hr Hu. unfold use. rewrite Hr, Hp.
  apply truthy_string_true in Hu. by rewrite Hu.
Qed.

Lemma use_policy sid fn now st : policy (after (use sid fn now st)) = policy st.
Proof.
  unfold use. by repeat case_match.
Qed.

Lemma store_policy sid url proxy now st : policy (store sid url proxy now st) = policy st.
Proof.
  unfold store. destruct url as [u|]; simpl; [|done].
  by destruct (Js.truthy_string _).
Qed.

Lemma run_policy ops st : policy (ReplyOps.run ops st) = policy st.
Proof.
  revert st. induction ops as [|op ops IH]; intros st; [done|].
  unfold ReplyOps.run in *. simpl. rewrite IH.
  destruct op; simpl; auto using store_policy, use_policy.
Qed.

End ReplyAddress.

Section ReplyAddressClaims.
Import ActiveReplyStore.

(** C1: the comment of [use] says that under the [once] policy the
    second call throws, and the constructor's that [once] destroys the
    address on use; the specification asks for it whether the first
    delivery succeeded or threw. The code does not do it when the first
    delivery threw: the [catch] branch writes [lastError] and re-throws,
    [usedAt] is written only after the callback resolved, so the guard
    [state.usedAt] does not hold on the second call. At this input the
    first [use] fails with the callback's error and the second [use]
    calls the callback again and resolves, instead of failing with the
    policy error. *)
Lemma once_second_use_after_failed_delivery :
  let r1 := use "s1" Samples.deliverFail 2000 Samples.bound_once in
  let r2 := use "s1" Samples.deliverOk 3000 (after r1) in
  policy Samples.bound_once = once ∧
  getUrl "s1" Samples.bound_once = Some "https://reply.example/x" ∧
  outcome r1 = DeliveryFailure (Js.ErrorObject "boom") ∧
  outcome r2 = Resolved ∧
  delivered r2 = [("https://reply.example/x", None)] ∧
  ¬ (∃ err, outcome r2 = PolicyViolation err).
Proof.
  vm_compute. repeat split; try reflexivity.
  intros [err Herr]. discriminate Herr.
Qed.

(** Where the guard of [use] does hold: under the [once] policy, with an
    address freshly bound for stream [s] and a first [use] whose callback
    resolved (the timestamp then written not being zero), the second
    [use] fails with the policy error, calls nothing and changes
    nothing. *)
Lemma once_second_use_after_success (st : t) (s url : string) (proxy : option string)
    (t0 t1 t2 : Z) (d1 d2 : Deliver) :
  policy st = once →
  Js.trim url ≠ "" →
  d1 (Js.trim url) proxy = None →
  t1 ≠ 0 →
  let st0 := store s (Some url) proxy t0 st in
  let r1 := use s d1 t1 st0 in
  let r2 := use s d2 t2 (after r1) in
  delivered r1 = [(Js.trim url, proxy)] ∧
  outcome r1 = Resolved ∧
  outcome r2 = PolicyViolation (Js.ErrorObject (policy_message s)) ∧
  delivered r2 = [] ∧
  after r2 = after r1.
Proof.
  intros Hp Hu Hd1 Ht1 st0 r1 r2.
  assert (Hst0 : activeReplies st0 !! s =
                 Some (ActiveReplyState.mk (Js.trim url) proxy t0 None None)).
  { unfold st0. rewrite store_bind by done. simpl. apply lookup_insert_eq. }
  assert (Hp0 : policy st0 = once).
  { unfold st0. by rewrite store_policy. }
  pose proof (use_fresh s d1 t1 st0 _ Hst0 Hu eq_refl) as Hr1.
  fold r1 in Hr1. simpl in Hr1. rewrite Hd1 in Hr1.
  rewrite Hr1. simpl. split; [done|]. split; [done|].
  unfold r2, use. rewrite Hr1. simpl.
  rewrite lookup_insert_eq. simpl.
  apply truthy_string_true in Hu. rewrite Hu, Hp0. simpl.
  apply Z.eqb_neq in Ht1. by rewrite Ht1.
Qed.

(** Scenario C of the specification. *)
Example scenario_C :
  let r1 := use "s1" Samples.deliverOk 2000 Samples.bound_once in
  let r2 := use "s1" Samples.deliverOk 3000 (after r1) in
  outcome r1 = Resolved ∧
  outcome r2 = PolicyViolation (Js.ErrorObject (policy_message "s1")) ∧
  delivered r2 = [].
Proof. vm_compute. repeat split. Qed.

(** C9: [store] with an absent response URL, or one that is blank once
    trimmed, changes nothing (a record bound before stays as it is);
    otherwise it binds a new record with the trimmed URL, the proxy and
    neither [usedAt] nor [lastError]; [use] on a stream without an
    address resolves, calls nothing and changes nothing. *)
Theorem store_and_use_unbound (st : t) (sid : string)
    (responseUrl proxyUrl : option string) (now : Z) (fn : Deliver) :
  (responseUrl = None ∨ (∃ u, responseUrl = Some u ∧ Js.trim u = "") →
   store sid responseUrl proxyUrl now st = st) ∧
  (∀ u, responseUrl = Some u → Js.trim u ≠ "" →
   policy (store sid responseUrl proxyUrl now st) = policy st ∧
   activeReplies (store sid responseUrl proxyUrl now st) =
     <[sid := ActiveReplyState.mk (Js.trim u) proxyUrl now None None]> (activeReplies st) ∧
   getUrl sid (store sid responseUrl proxyUrl now st) = Some (Js.trim u)) ∧
  (getUrl sid st = None →
   use sid fn now st = mkUse st [] Resolved).
Proof.
  split; [|split].
  - intros [->|(u & -> & Hu)]; [done|].
    unfold store. simpl. by rewrite Hu.
  - intros u -> Hu. rewrite store_bind by done. simpl.
    split; [done|]. split; [done|].
    unfold getUrl. simpl. by rewrite lookup_insert_eq.
  - unfold getUrl, use. intros Hn.
    destruct (activeReplies st !! sid); [discriminate|done].
Qed.

Lemma store_and_use_unbound_witness :
  store "s1" (Some "  ") None 5 Samples.bound_once = Samples.bound_once ∧
  getUrl "s2" (store "s2" (Some " https://reply.example/y ") None 5 Samples.bound_once)
    = Some "https://reply.example/y" ∧
  use "s2" Samples.deliverFail 5 Samples.bound_once
    = mkUse Samples.bound_once [] Resolved.
Proof.
  split; [|split].
  - apply (proj1 (store_and_use_unbound Samples.bound_once "s1" (Some "  ") None 5
                    Samples.deliverOk)).
    right. exists "  ". split; reflexivity.
  - apply (proj1 (proj2 (store_and_use_unbound Samples.bound_once "s2"
                           (Some " https://reply.example/y ") None 5
                           Samples.deliverOk))
             " https://reply.example/y ").
    + reflexivity.
    + vm_compute. discriminate.
  - apply (proj2 (proj2 (store_and_use_unbound Samples.bound_once "s2" None None 5
                           Samples.deliverFail))).
    vm_compute. reflexivity.
Defined.

End ReplyAddressClaims.

Section Coordinator.
Context `{WecomTypes}.
Import ActiveReplyStore.

(** C10: the reply-address store of the singleton is built with the
    [multi] policy, not with the default [once] of the constructor; it
    keeps that policy through every run of calls, so a [use] on it never
    fails with the policy error, and whenever an address is bound the
    callback is called, however often the address was used before. *)
Theorem monitorState_reply_store_multi (ops : list ReplyOps.Op) (sid : string)
    (fn : Deliver) (now : Z) :
  let st := ReplyOps.run ops (MonitorState.activeReplyStore monitorState) in
  policy (new None) = once ∧
  policy (MonitorState.activeReplyStore monitorState) = multi ∧
  policy st = multi ∧
  (∀ err, outcome (use sid fn now st) ≠ PolicyViolation err) ∧
  (∀ r, activeReplies st !! sid = Some r →
        ActiveReplyState.response_url r ≠ "" →
        delivered (use sid fn now st) =
          [(ActiveReplyState.response_url r, ActiveReplyState.proxyUrl r)]).
Proof.
  intros st.
  assert (Hp : policy st = multi) by (unfold st; by rewrite run_policy).
  split; [done|]. split; [done|]. split; [done|]. split.
  - intros err. unfold use. rewrite Hp. by repeat case_match.
  - intros r Hr Hu. rewrite (use_multi _ _ _ _ _ Hp Hr Hu).
    by destruct (fn _ _).
Qed.

End Coordinator.

(** ** Stream registry: the loops of [prune] *)

Section PruneLoops.
Context `{WecomTypes}.
Import StreamStore.

(** First loop, on any list of entries: a stream survives iff no entry
    of the list is an expired record under its id. *)
Lemma evicts_snoc cutoff l id0 s0 id :
  evicts cutoff (l ++ [(id0, s0)]) id ↔
  evicts cutoff l id ∨ (id = id0 ∧ expired cutoff s0).
Proof.
  unfold evicts. split.
  - intros (s & Hin & He).
    apply elem_of_app in Hin as [Hin|Hin]; [left; by eauto|].
    apply list_elem_of_singleton in Hin. injection Hin as -> ->. by right.
  - intros [(s & Hin & Hrest)|(-> & Hrest)].
    + exists s. split; [|done]. apply elem_of_app. by left.
    + exists s0. split; [|done]. apply elem_of_app. right.
      by apply list_elem_of_singleton.
Qed.

Lemma prune_streams_fold_streams cutoff l
    (S : gmap string StreamState.t) (I : gmap string string) id s :
  (foldl (prune_streams_body cutoff) (S, I) l).1 !! id = Some s ↔
  S !! id = Some s ∧ ¬ evicts cutoff l id.
Proof.
  induction l as [|[id0 s0] l IH] using rev_ind.
  - simpl. split; [|by intros [? _]].
    intros Hs. split; [done|]. intros (? & Hin & _). by apply elem_of_nil in Hin.
  - rewrite foldl_app. simpl.
    destruct (foldl (prune_streams_body cutoff) (S, I) l) as [S1 I1] eqn:Hf.
    simpl in IH. rewrite evicts_snoc.
    case_bool_decide as Hexp; simpl; [|rewrite IH; unfold expired; tauto].
    destruct (decide (id = id0)) as [->|Hne].
    + rewrite lookup_delete_eq. split; [done|]. intros [_ Hno]. exfalso. auto.
    + rewrite lookup_delete_ne by done. rewrite IH. tauto.
Qed.

Lemma unbinds_snoc cutoff l id0 s0 m id :
  unbinds cutoff (l ++ [(id0, s0)]) m id ↔
  unbinds cutoff l m id ∨
  (id = id0 ∧ expired cutoff s0 ∧ StreamState.msgid s0 = Some m ∧ m ≠ "").
Proof.
  unfold unbinds. split.
  - intros (s & Hin & He & Hm & Hne).
    apply elem_of_app in Hin as [Hin|Hin]; [left; by eauto|].
    apply list_elem_of_singleton in Hin. injection Hin as -> ->. by right.
  - intros [(s & Hin & Hrest)|(-> & Hrest)].
    + exists s. split; [|done]. apply elem_of_app. by left.
    + exists s0. split; [|done]. apply elem_of_app. right.
      by apply list_elem_of_singleton.
Qed.

Lemma prune_streams_fold_index cutoff l
    (S : gmap string StreamState.t) (I : gmap string string) :
  ∀ m id,
  (foldl (prune_streams_body cutoff) (S, I) l).2 !! m = Some id ↔
  I !! m = Some id ∧ ¬ unbinds cutoff l m id.
Proof.
  induction l as [|[id0 s0] l IH] using rev_ind; intros m id.
  - simpl. split; [|by intros [? _]].
    intros Hs. split; [done|]. intros (? & Hin & _). by apply elem_of_nil in Hin.
  - rewrite foldl_app. simpl.
    destruct (foldl (prune_streams_body cutoff) (S, I) l) as [S1 I1] eqn:Hf.
    simpl in IH. rewrite unbinds_snoc.
    case_bool_decide as Hexp; simpl; [|rewrite IH; unfold expired; tauto].
    destruct (StreamState.msgid s0) as [m0|] eqn:Hm0;
      [|rewrite IH; intuition congruence].
    destruct (Js.truthy_string m0) eqn:Ht.
    + apply truthy_string_true in Ht.
      case_bool_decide as Hpt.
      * destruct (decide (m = m0)) as [->|Hne].
        -- rewrite lookup_delete_eq. split; [done|].
           intros [HI Hno]. exfalso.
           apply IH in Hpt as [Hpt _].
           assert (id = id0) as -> by congruence.
           apply Hno. by right.
        -- rewrite lookup_delete_ne by done. rewrite IH. intuition congruence.
      * rewrite IH. split; [|tauto].
        intros [HI Hno]. split; [done|].
        intros [Hu|(-> & _ & [= ->] & _)]; [done|].
        apply Hpt. apply IH. done.
    + apply truthy_string_false in Ht. rewrite IH. intuition congruence.
Qed.

Lemma dangling_snoc live l m0 id0 m :
  dangling live (l ++ [(m0, id0)]) m ↔
  dangling live l m ∨ (m = m0 ∧ live !! id0 = None).
Proof.
  unfold dangling. split.
  - intros (id & Hin & Hl).
    apply elem_of_app in Hin as [Hin|Hin]; [left; by eauto|].
    apply list_elem_of_singleton in Hin. injection Hin as -> ->. by right.
  - intros [(id & Hin & Hl)|(-> & Hl)].
    + exists id. split; [|done]. apply elem_of_app. by left.
    + exists id0. split; [|done]. apply elem_of_app. right.
      by apply list_elem_of_singleton.
Qed.

Lemma prune_index_fold live l (I : gmap string string) m id :
  foldl (prune_index_body live) I l !! m = Some id ↔
  I !! m = Some id ∧ ¬ dangling live l m.
Proof.
  induction l as [|[m0 id0] l IH] using rev_ind.
  - simpl. split; [|by intros [? _]].
    intros Hs. split; [done|]. intros (? & Hin & _). by apply elem_of_nil in Hin.
  - rewrite foldl_app. simpl. rewrite dangling_snoc.
    destruct (live !! id0) as [s0|] eqn:Hl; [rewrite IH; intuition congruence|].
    destruct (decide (m = m0)) as [->|Hne].
    + rewrite lookup_delete_eq. split; [done|]. intros [_ Hno]. exfalso. auto.
    + rewrite lookup_delete_ne by done. rewrite IH. tauto.
Qed.

Lemma drops_snoc now l k0 p0 key :
  drops now (l ++ [(k0, p0)]) key ↔ drops now l key ∨ (key = k0 ∧ stale now p0).
Proof.
  unfold drops. split.
  - intros (p & Hin & Hs).
    apply elem_of_app in Hin as [Hin|Hin]; [left; by eauto|].
    apply list_elem_of_singleton in Hin. injection Hin as -> ->. by right.
  - intros [(p & Hin & Hs)|(-> & Hs)].
    + exists p. split; [|done]. apply elem_of_app. by left.
    + exists p0. split; [|done]. apply elem_of_app. right.
      by apply list_elem_of_singleton.
Qed.

Lemma disarms_snoc now l k0 p0 h :
  disarms now (l ++ [(k0, p0)]) h ↔
  disarms now l h ∨ (stale now p0 ∧ PendingInbound.timeout p0 = Some h).
Proof.
  unfold disarms. split.
  - intros (key & p & Hin & Hs).
    apply elem_of_app in Hin as [Hin|Hin]; [left; by eauto|].
    apply list_elem_of_singleton in Hin. injection Hin as -> ->. by right.
  - intros [(key & p & Hin & Hs)|Hs].
    + exists key, p. split; [|done]. apply elem_of_app. by left.
    + exists k0, p0. split; [|done]. apply elem_of_app. right.
      by apply list_elem_of_singleton.
Qed.

Lemma prune_pending_fold_pending now l
    (P : gmap string PendingInbound.t) (T : gmap nat Timer) key p :
  (foldl (prune_pending_body now) (P, T) l).1 !! key = Some p ↔
  P !! key = Some p ∧ ¬ drops now l key.
Proof.
  induction l as [|[k0 p0] l IH] using rev_ind.
  - simpl. split; [|by intros [? _]].
    intros Hs. split; [done|]. intros (? & Hin & _). by apply elem_of_nil in Hin.
  - rewrite foldl_app. simpl.
    destruct (foldl (prune_pending_body now) (P, T) l) as [P1 T1] eqn:Hf.
    simpl in IH. rewrite drops_snoc.
    case_bool_decide as Hst; simpl; [|rewrite IH; unfold stale; tauto].
    destruct (decide (key = k0)) as [->|Hne].
    + rewrite lookup_delete_eq. split; [done|]. intros [_ Hno]. exfalso. auto.
    + rewrite lookup_delete_ne by done. rewrite IH. tauto.
Qed.

Lemma prune_pending_fold_timers now l
    (P : gmap string PendingInbound.t) (T : gmap nat Timer) h tm :
  (foldl (prune_pending_body now) (P, T) l).2 !! h = Some tm ↔
  T !! h = Some tm ∧ ¬ disarms now l h.
Proof.
  induction l as [|[k0 p0] l IH] using rev_ind.
  - simpl. split; [|by intros [? _]].
    intros Hs. split; [done|]. intros (? & ? & Hin & _). by apply elem_of_nil in Hin.
  - rewrite foldl_app. simpl.
    destruct (foldl (prune_pending_body now) (P, T) l) as [P1 T1] eqn:Hf.
    simpl in IH. rewrite disarms_snoc.
    case_bool_decide as Hst; simpl; [|rewrite IH; unfold stale; tauto].
    destruct (PendingInbound.timeout p0) as [h0|] eqn:Hh0;
      [|rewrite IH; intuition congruence].
    destruct (decide (h = h0)) as [->|Hne].
    + rewrite lookup_delete_eq. split; [done|]. intros [_ Hno]. exfalso. auto.
    + rewrite lookup_delete_ne by done. rewrite IH. intuition congruence.
Qed.

(** ** [prune] as a whole *)

Lemma prune_unfold now (w : t) :
  let F1 := foldl (prune_streams_body (now - LIMITS.STREAM_TTL_MS))
              (streams w, msgidToStreamId w) (map_to_list (streams w)) in
  let F3 := foldl (prune_pending_body now) (pendingInbounds w, timers w)
              (map_to_list (pendingInbounds w)) in
  prune now w =
    mk F1.1 (foldl (prune_index_body F1.1) F1.2 (map_to_list F1.2))
       F3.1 (onFlush w) F3.2 (nextTimer w) (flushed w).
Proof.
  intros F1 F3. unfold prune. fold F1 F3. by destruct F1, F3.
Qed.

Lemma evicts_map_to_list cutoff (S : gmap string StreamState.t) id :
  evicts cutoff (map_to_list S) id ↔ ∃ s, S !! id = Some s ∧ expired cutoff s.
Proof.
  unfold evicts. split; intros (s & Hs & He); exists s; split; try done;
    by apply elem_of_map_to_list.
Qed.

Lemma prune_streams_lookup now (w : t) id s :
  streams (prune now w) !! id = Some s ↔
  streams w !! id = Some s ∧ ¬ expired (now - LIMITS.STREAM_TTL_MS) s.
Proof.
  rewrite prune_unfold. simpl.
  rewrite prune_streams_fold_streams, evicts_map_to_list.
  split; intros [Hs Hno]; (split; [done|]).
  - intros He. apply Hno. eauto.
  - intros (s' & Hs' & He). congruence.
Qed.

Lemma prune_index_lookup now (w : t) m id :
  msgidToStreamId (prune now w) !! m = Some id ↔
  msgidToStreamId w !! m = Some id ∧ is_Some (streams (prune now w) !! id).
Proof.
  rewrite prune_unfold. simpl.
  set (F1 := foldl (prune_streams_body (now - LIMITS.STREAM_TTL_MS))
               (streams w, msgidToStreamId w) (map_to_list (streams w))).
  rewrite prune_index_fold.
  split.
  - intros [HI Hno].
    pose proof HI as HI0. unfold F1 in HI0.
    apply prune_streams_fold_index in HI0 as [HI0 _]. split; [done|].
    destruct (F1.1 !! id) eqn:Hl; [eauto|].
    exfalso. apply Hno. exists id. split; [|done]. by apply elem_of_map_to_list.
  - intros [HI [s Hs]].
    assert (HF : F1.2 !! m = Some id).
    { unfold F1. apply prune_streams_fold_index. split; [done|].
      intros (s' & Hin & He & _).
      unfold F1 in Hs. apply prune_streams_fold_streams in Hs as [_ Hno].
      apply Hno. by exists s'. }
    split; [done|].
    intros (id' & Hin & Hl). apply elem_of_map_to_list in Hin. congruence.
Qed.

Lemma prune_pending_lookup now (w : t) key p :
  pendingInbounds (prune now w) !! key = Some p ↔
  pendingInbounds w !! key = Some p ∧ ¬ stale now p.
Proof.
  rewrite prune_unfold. simpl. rewrite prune_pending_fold_pending.
  split; intros [Hp Hno]; (split; [done|]).
  - intros Hs. apply Hno. exists p. split; [|done]. by apply elem_of_map_to_list.
  - intros (p' & Hin & Hs). apply elem_of_map_to_list in Hin. congruence.
Qed.

Lemma prune_timers_lookup now (w : t) h tm :
  timers (prune now w) !! h = Some tm ↔
  timers w !! h = Some tm ∧
  ¬ ∃ key p, pendingInbounds w !! key = Some p ∧ stale now p ∧
             PendingInbound.timeout p = Some h.
Proof.
  rewrite prune_unfold. simpl. rewrite prune_pending_fold_timers.
  split; intros [Hp Hno]; (split; [done|]); intros (key & p & Hin & Hs);
    apply Hno; exists key, p; (split; [|done]); by apply elem_of_map_to_list.
Qed.

End PruneLoops.

(** ** Debounce aggregator: groups and their timers *)

Section Timers.
Context `{WecomTypes}.
Import StreamStore.

Lemma timers_consistent_new : timers_consistent new.
Proof. split; intros ? ?; simpl; by rewrite lookup_empty. Qed.

Lemma consistent_group (w : t) key p :
  timers_consistent w → pendingInbounds w !! key = Some p →
  ∃ h delay, PendingInbound.timeout p = Some h ∧
             timers w !! h = Some (mkTimer key delay) ∧ (h < nextTimer w)%nat.
Proof.
  intros [H1 H2] Hp. destruct (H1 _ _ Hp) as (h & [k d] & Hh & Htm & Hk).
  simpl in Hk. subst k. exists h, d. split; [done|]. split; [done|].
  by destruct (H2 _ _ Htm).
Qed.

Lemma consistent_timer (w : t) h tm :
  timers_consistent w → timers w !! h = Some tm →
  (h < nextTimer w)%nat ∧
  ∃ p, pendingInbounds w !! timerKey tm = Some p ∧ PendingInbound.timeout p = Some h.
Proof. intros [_ H2]. apply H2. Qed.

(** The one armed timer of a key is the one its group holds. *)
Lemma consistent_timer_unique (w : t) key p h h' tm :
  timers_consistent w → pendingInbounds w !! key = Some p →
  PendingInbound.timeout p = Some h →
  timers w !! h' = Some tm → timerKey tm = key → h' = h.
Proof.
  intros Hc Hp Hh Htm Hk.
  destruct (consistent_timer _ _ _ Hc Htm) as (_ & p' & Hp' & Hh').
  rewrite Hk in Hp'. congruence.
Qed.

Lemma consistent_no_group (w : t) key h tm :
  timers_consistent w → pendingInbounds w !! key = None →
  timers w !! h = Some tm → timerKey tm ≠ key.
Proof.
  intros Hc Hp Htm Hk.
  destruct (consistent_timer _ _ _ Hc Htm) as (_ & p' & Hp' & _).
  rewrite Hk in Hp'. congruence.
Qed.

Lemma setFlushHandler_consistent handler (w : t) :
  timers_consistent w → timers_consistent (setFlushHandler handler w).
Proof. done. Qed.

Lemma createStream_consistent sid clock m (w : t) :
  timers_consistent w → timers_consistent (createStream sid clock m w).2.
Proof.
  unfold createStream. destruct m as [m|]; [|done].
  by destruct (Js.truthy_string m).
Qed.

Lemma updateStream_consistent sid mutator now (w : t) :
  timers_consistent w → timers_consistent (updateStream sid mutator now w).1.
Proof.
  unfold updateStream. destruct (streams w !! sid) as [s|]; [|done].
  by destruct (mutator s) as [s' [err|]].
Qed.

(** What [addPendingMessage] does to the groups and the timers. *)
Lemma addPendingMessage_existing params sid clock (w : t) g :
  pendingInbounds w !! PendingParams.pendingKey params = Some g →
  addPendingMessage params sid clock w =
    ((PendingInbound.streamId g, false),
     mk (streams w) (msgidToStreamId w)
        (<[PendingParams.pendingKey params :=
             PendingInbound.mk (PendingInbound.streamId g) (PendingInbound.target g)
               (PendingInbound.msg g)
               (PendingInbound.contents g ++ [PendingParams.msgContent params])
               (PendingInbound.msgids g ++ msgid_list (PendingParams.msg params))
               (PendingInbound.nonce g) (PendingInbound.timestamp g)
               (PendingInbound.createdAt g) (Some (nextTimer w))]>
           (pendingInbounds w))
        (onFlush w)
        (<[nextTimer w :=
             mkTimer (PendingParams.pendingKey params)
               (default LIMITS.DEFAULT_DEBOUNCE_MS (PendingParams.debounceMs params))]>
           (match PendingInbound.timeout g with
            | Some h => delete h (timers w)
            | None => timers w
            end))
        (S (nextTimer w)) (flushed w)).
Proof.
  intros Hg. unfold addPendingMessage. rewrite Hg. simpl.
  by destruct (PendingInbound.timeout g).
Qed.

Lemma addPendingMessage_fresh params sid clock (w : t) :
  pendingInbounds w !! PendingParams.pendingKey params = None →
  addPendingMessage params sid clock w =
    ((sid, true),
     let w1 := (createStream sid clock (inbound_msgid (PendingParams.msg params)) w).2 in
     mk (streams w1) (msgidToStreamId w1)
        (<[PendingParams.pendingKey params :=
             PendingInbound.mk sid (PendingParams.target params) (PendingParams.msg params)
               [PendingParams.msgContent params] (msgid_list (PendingParams.msg params))
               (PendingParams.nonce params) (PendingParams.timestamp params)
               (clock 2%nat) (Some (nextTimer w))]>
           (pendingInbounds w))
        (onFlush w)
        (<[nextTimer w :=
             mkTimer (PendingParams.pendingKey params)
               (default LIMITS.DEFAULT_DEBOUNCE_MS (PendingParams.debounceMs params))]>
           (timers w))
        (S (nextTimer w)) (flushed w)).
Proof.
  intros Hg. unfold addPendingMessage. rewrite Hg. simpl.
  unfold createStream. destruct (inbound_msgid _) as [m|]; [|done].
  by destruct (Js.truthy_string m).
Qed.

Lemma addPendingMessage_consistent params sid clock (w : t) :
  timers_consistent w → timers_consistent (addPendingMessage params sid clock w).2.
Proof.
  intros Hc. set (k := PendingParams.pendingKey params).
  destruct (pendingInbounds w !! k) as [g|] eqn:Hg.
  - rewrite (addPendingMessage_existing _ _ _ _ _ Hg). fold k. simpl.
    destruct (consistent_group _ _ _ Hc Hg) as (h & d & Hh & Htm & Hlt).
    rewrite Hh. split; simpl.
    + intros key p. destruct (decide (key = k)) as [->|Hne].
      * rewrite lookup_insert_eq. intros [= <-]. simpl.
        eexists _, _. split; [done|]. by rewrite lookup_insert_eq.
      * rewrite lookup_insert_ne by done. intros Hp.
        destruct (consistent_group _ _ _ Hc Hp) as (h' & d' & Hh' & Htm' & Hlt').
        exists h', (mkTimer key d'). split; [done|]. split; [|done].
        rewrite lookup_insert_ne by lia.
        rewrite lookup_delete_ne; [done|]. intros ->. congruence.
    + intros h' tm. destruct (decide (h' = nextTimer w)) as [->|Hne].
      * rewrite lookup_insert_eq. intros [= <-]. simpl. split; [lia|].
        eexists. by rewrite lookup_insert_eq.
      * rewrite lookup_insert_ne by done. intros Htm'.
        apply lookup_delete_Some in Htm' as [Hhh Htm'].
        destruct (consistent_timer _ _ _ Hc Htm') as (Hlt' & p & Hp & Hhp).
        split; [lia|]. exists p. split; [|done].
        rewrite lookup_insert_ne; [done|]. intros Hk. rewrite <- Hk in Hp. congruence.
  - rewrite (addPendingMessage_fresh _ _ _ _ Hg). fold k. simpl.
    pose proof (createStream_consistent sid clock
                  (inbound_msgid (PendingParams.msg params)) w Hc) as Hc1.
    split; simpl.
    + intros key p. destruct (decide (key = k)) as [->|Hne].
      * rewrite lookup_insert_eq. intros [= <-]. simpl.
        eexists _, _. split; [done|]. by rewrite lookup_insert_eq.
      * rewrite lookup_insert_ne by done. intros Hp.
        destruct (consistent_group _ _ _ Hc Hp) as (h' & d' & Hh' & Htm' & Hlt').
        exists h', (mkTimer key d'). split; [done|]. split; [|done].
        by rewrite lookup_insert_ne by lia.
    + intros h' tm. destruct (decide (h' = nextTimer w)) as [->|Hne].
      * rewrite lookup_insert_eq. intros [= <-]. simpl. split; [lia|].
        eexists. by rewrite lookup_insert_eq.
      * rewrite lookup_insert_ne by done. intros Htm'.
        destruct (consistent_timer _ _ _ Hc Htm') as (Hlt' & p & Hp & Hhp).
        split; [lia|]. exists p. split; [|done].
        rewrite lookup_insert_ne; [done|]. intros Hk. rewrite <- Hk in Hp. congruence.
Qed.

(** What [flushPending] does to a group that holds a timer. *)
Lemma flushPending_group key (w : t) g h :
  pendingInbounds w !! key = Some g →
  PendingInbound.timeout g = Some h →
  flushPending key w =
    mk (streams w) (msgidToStreamId w) (delete key (pendingInbounds w)) (onFlush w)
       (delete h (timers w)) (nextTimer w)
       (match onFlush w with
        | Some handler => flushed w ++ [(handler, PendingInbound.set_timeout None g)]
        | None => flushed w
        end).
Proof.
  intros Hg Hh. unfold flushPending. rewrite Hg, Hh. simpl.
  destruct (onFlush w) eqn:Hf; unfold set_flushed, clearTimeout, set_pendingInbounds;
    simpl; by rewrite ?Hf.
Qed.

Lemma flushPending_absent key (w : t) :
  pendingInbounds w !! key = None → flushPending key w = w.
Proof. intros Hg. unfold flushPending. by rewrite Hg. Qed.

Lemma flushPending_consistent key (w : t) :
  timers_consistent w → timers_consistent (flushPending key w).
Proof.
  intros Hc. destruct (pendingInbounds w !! key) as [g|] eqn:Hg;
    [|by rewrite flushPending_absent].
  destruct (consistent_group _ _ _ Hc Hg) as (h & d & Hh & Htm & Hlt).
  rewrite (flushPending_group _ _ _ _ Hg Hh). split; simpl.
  - intros key' p Hp. apply lookup_delete_Some in Hp as [Hne Hp].
    destruct (consistent_group _ _ _ Hc Hp) as (h' & d' & Hh' & Htm' & Hlt').
    exists h', (mkTimer key' d'). split; [done|]. split; [|done].
    rewrite lookup_delete_ne; [done|]. intros ->. congruence.
  - intros h' tm Htm'. apply lookup_delete_Some in Htm' as [Hne Htm'].
    destruct (consistent_timer _ _ _ Hc Htm') as (Hlt' & p & Hp & Hhp).
    split; [done|]. exists p. split; [|done].
    rewrite lookup_delete_ne; [done|]. intros Hk. rewrite <- Hk in Hp. congruence.
Qed.

(** In a consistent store a timer that fires flushes the group that holds
    it. *)
Lemma fireTimer_armed h (w : t) tm :
  timers_consistent w → timers w !! h = Some tm →
  fireTimer h w = flushPending (timerKey tm) w.
Proof.
  intros Hc Htm. unfold fireTimer. rewrite Htm.
  destruct (consistent_timer _ _ _ Hc Htm) as (_ & p & Hp & Hh).
  rewrite (flushPending_group _ w _ _ Hp Hh).
  rewrite (flushPending_group _ (clearTimeout h w) _ _ Hp Hh). simpl.
  f_equal. apply map_eq. intros i.
  destruct (decide (i = h)) as [->|Hne].
  - by rewrite !lookup_delete_eq.
  - by rewrite !lookup_delete_ne.
Qed.

Lemma fireTimer_unarmed h (w : t) :
  timers w !! h = None → fireTimer h w = w.
Proof. intros Htm. unfold fireTimer. by rewrite Htm. Qed.

Lemma fireTimer_consistent h (w : t) :
  timers_consistent w → timers_consistent (fireTimer h w).
Proof.
  intros Hc. destruct (timers w !! h) as [tm|] eqn:Htm.
  - rewrite (fireTimer_armed _ _ _ Hc Htm). by apply flushPending_consistent.
  - by rewrite fireTimer_unarmed.
Qed.

Lemma prune_nextTimer now (w : t) : nextTimer (prune now w) = nextTimer w.
Proof. by rewrite prune_unfold. Qed.

Lemma prune_flushed now (w : t) : flushed (prune now w) = flushed w.
Proof. by rewrite prune_unfold. Qed.

Lemma prune_onFlush now (w : t) : onFlush (prune now w) = onFlush w.
Proof. by rewrite prune_unfold. Qed.

Lemma prune_consistent now (w : t) :
  timers_consistent w → timers_consistent (prune now w).
Proof.
  intros Hc. split.
  - intros key p Hp. apply prune_pending_lookup in Hp as [Hp Hfresh].
    destruct (consistent_group _ _ _ Hc Hp) as (h & d & Hh & Htm & Hlt).
    exists h, (mkTimer key d). split; [done|]. split; [|done].
    apply prune_timers_lookup. split; [done|].
    intros (key' & p' & Hp' & Hst & Hh').
    destruct (consistent_group _ _ _ Hc Hp') as (h2 & d2 & Hh2 & Htm2 & _).
    assert (key' = key) as -> by congruence. congruence.
  - intros h tm Htm. apply prune_timers_lookup in Htm as [Htm Hno].
    destruct (consistent_timer _ _ _ Hc Htm) as (Hlt & p & Hp & Hh).
    rewrite prune_nextTimer. split; [done|]. exists p. split; [|done].
    apply prune_pending_lookup. split; [done|].
    intros Hst. apply Hno. by exists (timerKey tm), p.
Qed.

(** Every store reached from a consistent one is consistent. *)
Lemma run_consistent ops (w : t) :
  timers_consistent w → timers_consistent (StreamOps.run ops w).
Proof.
  revert w. induction ops as [|op ops IH]; intros w Hc; [done|].
  unfold StreamOps.run in *. simpl. apply IH.
  destruct op; unfold StreamOps.step, markStarted, markFinished.
  - by apply setFlushHandler_consistent.
  - by apply createStream_consistent.
  - by apply updateStream_consistent.
  - by apply updateStream_consistent.
  - by apply updateStream_consistent.
  - by apply addPendingMessage_consistent.
  - by apply fireTimer_consistent.
  - by apply prune_consistent.
Qed.

Corollary reachable_consistent ops : timers_consistent (StreamOps.run ops new).
Proof. apply run_consistent, timers_consistent_new. Qed.

End Timers.

(** ** Debounce aggregator: bursts of arrivals *)

Section Debounce.
Context `{WecomTypes}.
Import StreamStore.

(** One arrival for a key that has a group. *)
Lemma arrival_existing (a : StreamOps.Arrival) (w : t) g :
  timers_consistent w →
  pendingInbounds w !! arrival_key a = Some g →
  let r := addPendingMessage (StreamOps.params a) (StreamOps.streamId a)
             (StreamOps.clock a) w in
  r.1 = (PendingInbound.streamId g, false) ∧
  timers_consistent r.2 ∧
  flushed r.2 = flushed w ∧
  onFlush r.2 = onFlush w ∧
  ∃ g1, pendingInbounds r.2 !! arrival_key a = Some g1 ∧
        PendingInbound.streamId g1 = PendingInbound.streamId g ∧
        PendingInbound.contents g1 = PendingInbound.contents g ++ [arrival_content a] ∧
        PendingInbound.msgids g1 = PendingInbound.msgids g ++ arrival_msgids a.
Proof.
  intros Hc Hg r.
  pose proof (addPendingMessage_consistent (StreamOps.params a)
                (StreamOps.streamId a) (StreamOps.clock a) w Hc) as Hc1.
  fold r in Hc1. unfold arrival_key in *.
  assert (Hr : r = _) by exact (addPendingMessage_existing _ _ _ _ _ Hg).
  split; [by rewrite Hr|]. split; [done|].
  split; [by rewrite Hr|]. split; [by rewrite Hr|].
  eexists. split; [rewrite Hr; simpl; apply lookup_insert_eq|]. done.
Qed.

(** Arrivals for a key that has a group extend the group and flush
    nothing. *)
Lemma arrivals_existing key (l : list StreamOps.Arrival) :
  ∀ (w : t) g,
    timers_consistent w →
    pendingInbounds w !! key = Some g →
    Forall (λ a, arrival_key a = key) l →
    ∃ g',
      (StreamOps.arrivals l w).1 = map (λ _, (PendingInbound.streamId g, false)) l ∧
      timers_consistent (StreamOps.arrivals l w).2 ∧
      pendingInbounds (StreamOps.arrivals l w).2 !! key = Some g' ∧
      PendingInbound.streamId g' = PendingInbound.streamId g ∧
      PendingInbound.contents g' = PendingInbound.contents g ++ map arrival_content l ∧
      PendingInbound.msgids g' =
        PendingInbound.msgids g ++ mjoin (map arrival_msgids l) ∧
      flushed (StreamOps.arrivals l w).2 = flushed w ∧
      onFlush (StreamOps.arrivals l w).2 = onFlush w.
Proof.
  induction l as [|a l IH]; intros w g Hc Hg Hall.
  - exists g. simpl. rewrite !app_nil_r. done.
  - apply Forall_cons in Hall as [Hk Hall]. subst key.
    destruct (arrival_existing a w g Hc Hg)
      as (Hr & Hc1 & Hfl1 & Hon1 & g1 & Hg1 & Hsid1 & Hcont1 & Hids1).
    simpl.
    destruct (addPendingMessage _ _ _ w) as [r w1]. simpl in *.
    destruct (IH w1 g1 Hc1 Hg1 Hall)
      as (g' & Hrs & Hc' & Hg' & Hsid & Hcont & Hids & Hfl & Hon).
    destruct (StreamOps.arrivals l w1) as [rs w2]. simpl in *.
    exists g'. rewrite Hr, Hrs, Hcont, Hids, Hfl, Hon, Hsid, Hsid1, Hcont1, Hids1.
    rewrite <- !app_assoc. done.
Qed.

(** An arrival for another key leaves the group of [key] and its timer as
    they are, and flushes nothing. *)
Lemma arrival_other_key (a : StreamOps.Arrival) (w : t) key :
  timers_consistent w →
  arrival_key a ≠ key →
  let r := addPendingMessage (StreamOps.params a) (StreamOps.streamId a)
             (StreamOps.clock a) w in
  pendingInbounds r.2 !! key = pendingInbounds w !! key ∧
  flushed r.2 = flushed w ∧
  (∀ h tm, timers w !! h = Some tm → timerKey tm = key → timers r.2 !! h = Some tm).
Proof.
  intros Hc Hne r. unfold arrival_key in Hne.
  destruct (pendingInbounds w !! PendingParams.pendingKey (StreamOps.params a))
    as [g|] eqn:Hg.
  - assert (Hr : r = _) by exact (addPendingMessage_existing _ _ _ _ _ Hg).
    rewrite Hr. simpl. split; [by rewrite lookup_insert_ne|]. split; [done|].
    intros h tm Htm Hk.
    destruct (consistent_timer _ _ _ Hc Htm) as (Hlt & _).
    rewrite lookup_insert_ne by lia.
    destruct (consistent_group _ _ _ Hc Hg) as (h' & d & Hh & Htm' & _).
    rewrite Hh. rewrite lookup_delete_ne; [done|].
    intros ->. rewrite Htm in Htm'. injection Htm' as ->. simpl in Hk. congruence.
  - assert (Hr : r = _) by exact (addPendingMessage_fresh _ _ _ _ Hg).
    rewrite Hr. simpl. split; [by rewrite lookup_insert_ne|]. split; [done|].
    intros h tm Htm Hk.
    destruct (consistent_timer _ _ _ Hc Htm) as (Hlt & _).
    by rewrite lookup_insert_ne by lia.
Qed.

(** The first arrival for a key without a group. *)
Lemma arrival_fresh (a : StreamOps.Arrival) (w : t) :
  timers_consistent w →
  pendingInbounds w !! arrival_key a = None →
  let r := addPendingMessage (StreamOps.params a) (StreamOps.streamId a)
             (StreamOps.clock a) w in
  r.1 = (StreamOps.streamId a, true) ∧
  timers_consistent r.2 ∧
  flushed r.2 = flushed w ∧
  onFlush r.2 = onFlush w ∧
  ∃ g1, pendingInbounds r.2 !! arrival_key a = Some g1 ∧
        PendingInbound.streamId g1 = StreamOps.streamId a ∧
        PendingInbound.contents g1 = [arrival_content a] ∧
        PendingInbound.msgids g1 = arrival_msgids a.
Proof.
  intros Hc Hg r.
  pose proof (addPendingMessage_consistent (StreamOps.params a)
                (StreamOps.streamId a) (StreamOps.clock a) w Hc) as Hc1.
  fold r in Hc1. unfold arrival_key in *.
  assert (Hr : r = _) by exact (addPendingMessage_fresh _ _ _ _ Hg).
  split; [by rewrite Hr|]. split; [done|].
  split; [by rewrite Hr|]. split; [by rewrite Hr|].
  eexists. split; [rewrite Hr; simpl; apply lookup_insert_eq|]. done.
Qed.

End Debounce.

(** ** Stream registry *)

Section RegistryClaims.
Context `{WecomTypes}.
Import StreamStore.

(** C4: a message id is a non-empty string (the empty string counts as no
    id: [if (params.msgid)]). For every message id [m], after
    [createStream({msgid: m})] the lookup [getStreamByMsgId(m)] returns the
    id [createStream] returned, and the stream is registered under it; a
    later [createStream] with the same [m] rebinds [m] to the later stream.
    So a second event with the same [m] that checks the index first finds
    the first stream's id. *)
Theorem createStream_getStreamByMsgId (w : t) (sid : string) (clock : nat → Z)
    (m : string) :
  m ≠ "" →
  let r := createStream sid clock (Some m) w in
  r.1 = sid ∧
  getStreamByMsgId m r.2 = Some r.1 ∧
  getStream r.1 r.2 =
    Some (StreamState.mk sid (Some m) (clock 0%nat) (clock 1%nat) false false "") ∧
  (∀ sid2 clock2,
     getStreamByMsgId m (createStream sid2 clock2 (Some m) r.2).2 = Some sid2).
Proof.
  intros Hm r. apply truthy_string_true in Hm.
  unfold r, createStream, getStreamByMsgId, getStream. simpl. rewrite Hm. simpl.
  rewrite !lookup_insert_eq. repeat split. intros sid2 _. apply lookup_insert_eq.
Qed.

(** C5: [prune(now)] removes a stream iff [now] minus its last update
    exceeds the stream TTL of ten minutes; a stream that stays is
    unchanged. *)
Theorem prune_stream_ttl (w : t) (now : Z) (id : string) (s : StreamState.t) :
  getStream id w = Some s →
  LIMITS.STREAM_TTL_MS = 600000 ∧
  (getStream id (prune now w) = None ↔
     now - StreamState.updatedAt s > LIMITS.STREAM_TTL_MS) ∧
  (getStream id (prune now w) = Some s ↔
     now - StreamState.updatedAt s ≤ LIMITS.STREAM_TTL_MS).
Proof.
  unfold getStream. intros Hs. split; [done|].
  assert (Hkeep : streams (prune now w) !! id = Some s ↔
                  now - StreamState.updatedAt s ≤ LIMITS.STREAM_TTL_MS).
  { rewrite prune_streams_lookup. unfold expired. split; [intros [_ ?]; lia|].
    intros ?. split; [done|lia]. }
  split; [|done].
  split.
  - intros Hnone.
    destruct (decide (now - StreamState.updatedAt s > LIMITS.STREAM_TTL_MS));
      [done|].
    assert (Hk : streams (prune now w) !! id = Some s) by (apply Hkeep; lia).
    congruence.
  - intros Hgt. destruct (streams (prune now w) !! id) as [s'|] eqn:Hs'; [|done].
    apply prune_streams_lookup in Hs' as [Hs' Hne]. unfold expired in Hne.
    assert (s' = s) as -> by congruence. lia.
Qed.

(** C6: after [prune(now)] every entry of the index points at a stream of
    the stream map. The first loop, when it removes the stream [id] that
    carries the message id [m], deletes the entry of [m] iff that entry
    points at [id], and touches no other entry; an entry is gone after the
    first loop iff it pointed at a removed stream that carries its key.
    The second loop deletes exactly the entries whose stream is missing. *)
Theorem prune_index_live (w : t) (now : Z) :
  let cutoff := now - LIMITS.STREAM_TTL_MS in
  let F1 := foldl (prune_streams_body cutoff) (streams w, msgidToStreamId w)
              (map_to_list (streams w)) in
  (∀ m id, msgidToStreamId (prune now w) !! m = Some id →
           is_Some (streams (prune now w) !! id)) ∧
  (∀ (acc : gmap string StreamState.t * gmap string string) id s m,
     expired cutoff s → StreamState.msgid s = Some m → m ≠ "" →
     (prune_streams_body cutoff acc (id, s)).1 = delete id acc.1 ∧
     (prune_streams_body cutoff acc (id, s)).2 =
       (if decide (acc.2 !! m = Some id) then delete m acc.2 else acc.2)) ∧
  (∀ m id, F1.2 !! m = Some id ↔
           msgidToStreamId w !! m = Some id ∧
           ¬ ∃ s, streams w !! id = Some s ∧ expired cutoff s ∧
                  StreamState.msgid s = Some m ∧ m ≠ "") ∧
  streams (prune now w) = F1.1 ∧
  (∀ m id, msgidToStreamId (prune now w) !! m = Some id ↔
           F1.2 !! m = Some id ∧ is_Some (F1.1 !! id)).
Proof.
  intros cutoff F1.
  assert (Hst : streams (prune now w) = F1.1) by (by rewrite prune_unfold).
  split; [|split; [|split; [|split]]].
  - intros m id Hm. by apply prune_index_lookup in Hm as [_ ?].
  - intros acc id s m He Hm Hne. unfold expired in He.
    unfold prune_streams_body. rewrite bool_decide_eq_true_2 by done.
    rewrite Hm. apply truthy_string_true in Hne. rewrite Hne. simpl.
    split; [done|]. case_bool_decide; case_decide; done.
  - intros m id. unfold F1. rewrite prune_streams_fold_index.
    split; intros [HI Hno]; (split; [done|]).
    + intros (s & Hs & Hrest). apply Hno. exists s. split; [|done].
      by apply elem_of_map_to_list.
    + intros (s & Hs & Hrest). apply Hno. exists s. split; [|done].
      by apply elem_of_map_to_list.
  - done.
  - intros m id. rewrite prune_index_lookup, Hst. split.
    + intros [HI [s Hs]]. split; [|by eauto].
      unfold F1. apply prune_streams_fold_index. split; [done|].
      intros (s' & Hin & He & _).
      unfold F1 in Hs. apply prune_streams_fold_streams in Hs as [_ Hno].
      apply Hno. by exists s'.
    + intros [HF Hl]. split; [|done].
      unfold F1 in HF. by apply prune_streams_fold_index in HF as [? _].
Qed.

(** C7: [updateStream] on a stream that exists applies the mutator and,
    when the mutator returns, writes the time of the call to [updatedAt];
    [markStarted] and [markFinished] set their flag and [updatedAt]. On a
    stream that is absent the three return without an exception and leave
    the store as it is. *)
Theorem updateStream_exists_or_noop (w : t) (id : string) (mutator : Mutator)
    (now : Z) :
  match getStream id w with
  | Some s =>
      (∀ s', mutator s = (s', None) →
         updateStream id mutator now w =
           (set_streams (<[id := StreamState.set_updatedAt now s']> (streams w)) w,
            None)) ∧
      markStarted id now w =
        (set_streams
           (<[id := StreamState.mk (StreamState.streamId s) (StreamState.msgid s)
                      (StreamState.createdAt s) now true (StreamState.finished s)
                      (StreamState.content s)]> (streams w)) w, None) ∧
      markFinished id now w =
        (set_streams
           (<[id := StreamState.mk (StreamState.streamId s) (StreamState.msgid s)
                      (StreamState.createdAt s) now (StreamState.started s) true
                      (StreamState.content s)]> (streams w)) w, None)
  | None =>
      updateStream id mutator now w = (w, None) ∧
      markStarted id now w = (w, None) ∧
      markFinished id now w = (w, None)
  end.
Proof.
  unfold getStream, markStarted, markFinished, updateStream.
  destruct (streams w !! id) as [s|]; [|done].
  split; [|done]. intros s' Hs'. by rewrite Hs'.
Qed.

End RegistryClaims.

(** ** Debounce aggregator *)

Section DebounceClaims.
Context `{WecomTypes}.
Import StreamStore.

Lemma msgid_list_spec (m : WecomInboundMessage) :
  (∀ i, i ∈ msgid_list m ↔ inbound_msgid m = Some i ∧ i ≠ "") ∧
  (length (msgid_list m) ≤ 1)%nat.
Proof.
  unfold msgid_list. destruct (inbound_msgid m) as [j|]; simpl.
  - destruct (Js.truthy_string j) eqn:Hj; simpl.
    + apply truthy_string_true in Hj. split; [|lia]. intros i.
      rewrite list_elem_of_singleton. split; [by intros ->|]. by intros [[= ->] _].
    + apply truthy_string_false in Hj. split; [|lia]. intros i.
      split; [by intros ?%elem_of_nil|]. intros [[= ->] ?]. done.
  - split; [|lia]. intros i. split; [by intros ?%elem_of_nil|]. by intros [? _].
Qed.

(** C2: a message carries an id when [msg.msgid] is a non-empty string.
    When a group exists for the key, [addPendingMessage] appends the
    fragment to its contents and the message id, if any, to its ids,
    clears the timer the group holds and arms a new one with the debounce
    delay (500 ms by default), and returns the group's stream id with
    [isNew = false]; the streams and the index are unchanged. When no
    group exists, it creates a stream with the message id, stores a group
    with the one fragment and a timer armed with the debounce delay, and
    returns the new stream id with [isNew = true]. The flush handler is
    not called. *)
Theorem addPendingMessage_group (params : PendingParams.t) (sid : string)
    (clock : nat → Z) (w : t) :
  let key := PendingParams.pendingKey params in
  let delay := default LIMITS.DEFAULT_DEBOUNCE_MS (PendingParams.debounceMs params) in
  let ids := msgid_list (PendingParams.msg params) in
  let r := addPendingMessage params sid clock w in
  LIMITS.DEFAULT_DEBOUNCE_MS = 500 ∧
  (∀ i, i ∈ ids ↔ inbound_msgid (PendingParams.msg params) = Some i ∧ i ≠ "") ∧
  (length ids ≤ 1)%nat ∧
  flushed r.2 = flushed w ∧
  nextTimer r.2 = S (nextTimer w) ∧
  match pendingInbounds w !! key with
  | Some g =>
      r.1 = (PendingInbound.streamId g, false) ∧
      pendingInbounds r.2 =
        <[key := PendingInbound.mk (PendingInbound.streamId g) (PendingInbound.target g)
                   (PendingInbound.msg g)
                   (PendingInbound.contents g ++ [PendingParams.msgContent params])
                   (PendingInbound.msgids g ++ ids)
                   (PendingInbound.nonce g) (PendingInbound.timestamp g)
                   (PendingInbound.createdAt g) (Some (nextTimer w))]>
          (pendingInbounds w) ∧
      timers r.2 =
        <[nextTimer w := mkTimer key delay]>
          (match PendingInbound.timeout g with
           | Some h => delete h (timers w)
           | None => timers w
           end) ∧
      (timers_consistent w →
       ∀ h, PendingInbound.timeout g = Some h → timers r.2 !! h = None) ∧
      streams r.2 = streams w ∧
      msgidToStreamId r.2 = msgidToStreamId w
  | None =>
      let c := createStream sid clock (inbound_msgid (PendingParams.msg params)) w in
      r.1 = (sid, true) ∧
      c.1 = sid ∧
      streams r.2 = streams c.2 ∧
      msgidToStreamId r.2 = msgidToStreamId c.2 ∧
      getStream sid r.2 =
        Some (StreamState.mk sid (inbound_msgid (PendingParams.msg params))
                (clock 0%nat) (clock 1%nat) false false "") ∧
      pendingInbounds r.2 =
        <[key := PendingInbound.mk sid (PendingParams.target params)
                   (PendingParams.msg params) [PendingParams.msgContent params] ids
                   (PendingParams.nonce params) (PendingParams.timestamp params)
                   (clock 2%nat) (Some (nextTimer w))]>
          (pendingInbounds w) ∧
      timers r.2 = <[nextTimer w := mkTimer key delay]> (timers w)
  end.
Proof.
  intros key delay ids r.
  split; [done|]. split; [apply msgid_list_spec|]. split; [apply msgid_list_spec|].
  destruct (pendingInbounds w !! key) as [g|] eqn:Hg.
  - assert (Hr : r = _) by exact (addPendingMessage_existing _ sid clock _ _ Hg).
    rewrite Hr. simpl. repeat (split; [done|]). split; [|done].
    intros Hc h Hh. rewrite Hh.
    destruct (consistent_group _ _ _ Hc Hg) as (h' & d & Hh' & _ & Hlt).
    assert (h' = h) as -> by congruence.
    rewrite lookup_insert_ne by lia. apply lookup_delete_eq.
  - assert (Hr : r = _) by exact (addPendingMessage_fresh _ sid clock _ Hg).
    rewrite Hr. simpl. repeat (split; [done|]).
    split; [|done].
    unfold getStream, createStream. simpl. apply lookup_insert_eq.
Qed.

(** C3: in a store reached from [new] with a flush handler registered and
    no group for the key, a burst of arrivals for the key returns
    [isNew = true] for the first arrival only, always with the stream id
    of the first, and calls the handler for nothing; it leaves one group,
    whose fragments are those of the arrivals in order, and one armed
    timer for the key. When that timer fires the handler is called once,
    with that group, and the group is removed; after that no timer is
    armed for the key and [flushPending] for the key changes nothing. *)
Theorem burst_flushes_once (w : t) (key : string) (handler : FlushHandler)
    (a : StreamOps.Arrival) (l : list StreamOps.Arrival) :
  timers_consistent w →
  pendingInbounds w !! key = None →
  onFlush w = Some handler →
  Forall (λ x, arrival_key x = key) (a :: l) →
  let rs := (StreamOps.arrivals (a :: l) w).1 in
  let w1 := (StreamOps.arrivals (a :: l) w).2 in
  ∃ g h tm,
    rs = (StreamOps.streamId a, true) :: map (λ _, (StreamOps.streamId a, false)) l ∧
    flushed w1 = flushed w ∧
    pendingInbounds w1 !! key = Some g ∧
    PendingInbound.contents g = map arrival_content (a :: l) ∧
    length (PendingInbound.contents g) = length (a :: l) ∧
    PendingInbound.msgids g = mjoin (map arrival_msgids (a :: l)) ∧
    PendingInbound.timeout g = Some h ∧
    timers w1 !! h = Some tm ∧ timerKey tm = key ∧
    (∀ h' tm', timers w1 !! h' = Some tm' → timerKey tm' = key → h' = h) ∧
    let w2 := fireTimer h w1 in
    flushed w2 = flushed w ++ [(handler, PendingInbound.set_timeout None g)] ∧
    pendingInbounds w2 !! key = None ∧
    (∀ h' tm', timers w2 !! h' = Some tm' → timerKey tm' ≠ key) ∧
    flushPending key w2 = w2.
Proof.
  intros Hc Hnone Hon Hall rs w1.
  apply Forall_cons in Hall as [Hk Hall]. subst key.
  destruct (arrival_fresh a w Hc Hnone)
    as (Hr & Hc0 & Hfl0 & Hon0 & g0 & Hg0 & Hsid0 & Hcont0 & Hids0).
  unfold rs, w1. simpl.
  destruct (addPendingMessage _ _ _ w) as [r w0]. simpl in *.
  destruct (arrivals_existing _ l w0 g0 Hc0 Hg0 Hall)
    as (g & Hrs & Hc1 & Hg & Hsid & Hcont & Hids & Hfl & Hon1).
  destruct (StreamOps.arrivals l w0) as [rs' w']. simpl in *.
  destruct (consistent_group _ _ _ Hc1 Hg) as (h & d & Hh & Htm & Hlt).
  exists g, h, (mkTimer (arrival_key a) d).
  split; [by rewrite Hr, Hrs, Hsid0|].
  split; [congruence|]. split; [done|].
  split; [by rewrite Hcont, Hcont0|].
  split; [by rewrite Hcont, Hcont0; simpl; rewrite length_map|].
  split; [by rewrite Hids, Hids0|].
  split; [done|]. split; [done|]. split; [done|].
  split; [intros h' tm' Htm' Hk'; by eapply consistent_timer_unique|].
  rewrite (fireTimer_armed _ _ _ Hc1 Htm). simpl.
  pose proof (flushPending_consistent (arrival_key a) w' Hc1) as Hc2.
  rewrite (flushPending_group _ _ _ _ Hg Hh) in Hc2 |- *. simpl.
  assert (Hgone : delete (arrival_key a) (pendingInbounds w') !! arrival_key a = None)
    by apply lookup_delete_eq.
  split; [rewrite Hon1, Hon0, Hon, Hfl, Hfl0; done|].
  split; [done|].
  split.
  - intros h' tm' Htm'. by eapply (consistent_no_group _ _ _ _ Hc2 Hgone).
  - by apply flushPending_absent.
Qed.

(** C8: [prune(now)] does not call the flush handler. A group created more
    than the stream TTL before [now] is removed from the pending map and
    the timer it holds is disarmed; a group that is not older than the TTL
    stays as it is, and so does its timer. *)
Theorem prune_pending_fallback (w : t) (now : Z) (key : string)
    (p : PendingInbound.t) :
  pendingInbounds w !! key = Some p →
  flushed (prune now w) = flushed w ∧
  (now - PendingInbound.createdAt p > LIMITS.STREAM_TTL_MS →
   pendingInbounds (prune now w) !! key = None ∧
   ∀ h, PendingInbound.timeout p = Some h → timers (prune now w) !! h = None) ∧
  (now - PendingInbound.createdAt p ≤ LIMITS.STREAM_TTL_MS →
   pendingInbounds (prune now w) !! key = Some p ∧
   (timers_consistent w →
    ∀ h, PendingInbound.timeout p = Some h →
         timers (prune now w) !! h = timers w !! h)).
Proof.
  intros Hp. split; [apply prune_flushed|]. split.
  - intros Hold. split.
    + destruct (pendingInbounds (prune now w) !! key) as [p'|] eqn:Hp'; [|done].
      apply prune_pending_lookup in Hp' as [Hp' Hfresh].
      assert (p' = p) as -> by congruence. by destruct Hfresh.
    + intros h Hh.
      destruct (timers (prune now w) !! h) as [tm|] eqn:Htm; [|done].
      apply prune_timers_lookup in Htm as [_ Hno].
      destruct Hno. by exists key, p.
  - intros Hyoung. split.
    + apply prune_pending_lookup. split; [done|]. unfold stale. lia.
    + intros Hc h Hh.
      destruct (timers w !! h) as [tm|] eqn:Htm.
      * apply prune_timers_lookup. split; [done|].
        intros (key' & p' & Hp' & Hst & Hh').
        destruct (consistent_group _ _ _ Hc Hp') as (h1 & d1 & Hh1 & Htm1 & _).
        destruct (consistent_group _ _ _ Hc Hp) as (h2 & d2 & Hh2 & Htm2 & _).
        assert (key' = key) as -> by congruence.
        assert (p' = p) as -> by congruence.
        unfold stale in Hst. lia.
      * destruct (timers (prune now w) !! h) as [tm|] eqn:Htm'; [|done].
        apply prune_timers_lookup in Htm' as [Htm' _]. congruence.
Qed.

End DebounceClaims.

(** ** The scenarios of the specification, on the sample store *)

Section Scenarios.
Import StreamStore.

Lemma store0_consistent : timers_consistent Samples.store0.
Proof. apply setFlushHandler_consistent, timers_consistent_new. Qed.

Lemma hello_world_key :
  Forall (λ x, @arrival_key Samples.types x = "u1") Samples.hello_world.
Proof. repeat constructor. Qed.

(** Scenario A: one arrival, then the timer fires. *)
Example scenario_A :
  let w1 := (StreamOps.arrivals [Samples.arrival "hello" (Some "m1") "aa01" 1000]
               Samples.store0).2 in
  timers w1 = {[ 0%nat := mkTimer "u1" 500 ]} ∧
  flushed (fireTimer 0 w1) =
    [("agent",
      @PendingInbound.mk Samples.types "aa01" "bot"
        (Samples.mkMessage (Some "m1") "hello") ["hello"] ["m1"] "n" "1700000000"
        1000 None)].
Proof. vm_compute. split; reflexivity. Qed.

(** Scenario B: the first timer is cleared by the second arrival, so only
    the second timer can fire. *)
Example scenario_B :
  let w1 := (StreamOps.arrivals Samples.hello_world Samples.store0).2 in
  (StreamOps.arrivals Samples.hello_world Samples.store0).1 =
    [("aa01", true); ("aa01", false)] ∧
  timers w1 = {[ 1%nat := mkTimer "u1" 500 ]} ∧
  fireTimer 0 w1 = w1 ∧
  flushed (fireTimer 1 w1) =
    [("agent",
      @PendingInbound.mk Samples.types "aa01" "bot"
        (Samples.mkMessage (Some "m1") "hello") ["hello"; " world"] ["m1"; "m2"]
        "n" "1700000000" 1000 None)].
Proof. vm_compute. repeat split; reflexivity. Qed.

Lemma burst_flushes_once_witness :
  let w1 := (StreamOps.arrivals Samples.hello_world Samples.store0).2 in
  ∃ g h,
    pendingInbounds w1 !! "u1" = Some g ∧
    PendingInbound.contents g = ["hello"; " world"] ∧
    PendingInbound.timeout g = Some h ∧
    flushed (fireTimer h w1) = [("agent", PendingInbound.set_timeout None g)] ∧
    flushPending "u1" (fireTimer h w1) = fireTimer h w1.
Proof.
  destruct (@burst_flushes_once Samples.types Samples.store0 "u1" "agent"
              (Samples.arrival "hello" (Some "m1") "aa01" 1000)
              [Samples.arrival " world" (Some "m2") "aa02" 1100]
              store0_consistent eq_refl eq_refl hello_world_key)
    as (g & h & tm & _ & _ & Hg & Hcont & _ & _ & Hh & _ & _ & _ & Hfl & _ & _ & Hagain).
  exists g, h. repeat split; assumption.
Defined.

Lemma createStream_getStreamByMsgId_witness :
  getStreamByMsgId "m1"
    (@createStream Samples.types "aa01" (λ _, 1000) (Some "m1") Samples.store0).2
  = Some "aa01".
Proof.
  apply (@createStream_getStreamByMsgId Samples.types Samples.store0 "aa01"
           (λ _, 1000) "m1").
  discriminate.
Defined.

(** Scenario D, and the boundary: eleven minutes after the last update the
    stream is evicted, ten minutes after it is not. *)
Lemma prune_stream_ttl_witness :
  getStream "aa01" (prune (1000 + 11 * 60 * 1000) Samples.one_stream) = None ∧
  getStream "aa01" (prune (1000 + 10 * 60 * 1000) Samples.one_stream) =
    Some (StreamState.mk "aa01" (Some "m1") 1000 1000 false false "").
Proof.
  split.
  - apply (@prune_stream_ttl Samples.types Samples.one_stream _ "aa01"
             (StreamState.mk "aa01" (Some "m1") 1000 1000 false false "")).
    + reflexivity.
    + vm_compute. reflexivity.
  - apply (@prune_stream_ttl Samples.types Samples.one_stream _ "aa01"
             (StreamState.mk "aa01" (Some "m1") 1000 1000 false false "")).
    + reflexivity.
    + vm_compute. discriminate.
Defined.

Lemma prune_pending_fallback_witness :
  let w1 := (StreamOps.arrivals Samples.hello_world Samples.store0).2 in
  pendingInbounds (prune 700000 w1) !! "u1" = None ∧
  timers (prune 700000 w1) !! 1%nat = None ∧
  flushed (prune 700000 w1) = [] ∧
  pendingInbounds (prune 601000 w1) !! "u1" = pendingInbounds w1 !! "u1".
Proof.
  pose (p := @PendingInbound.mk Samples.types "aa01" "bot"
               (Samples.mkMessage (Some "m1") "hello") ["hello"; " world"]
               ["m1"; "m2"] "n" "1700000000" 1000 (Some 1%nat)).
  intros w1.
  assert (Hp : pendingInbounds w1 !! "u1" = Some p) by reflexivity.
  destruct (@prune_pending_fallback Samples.types w1 700000 "u1" p Hp)
    as (Hfl & Hold & _).
  destruct (@prune_pending_fallback Samples.types w1 601000 "u1" p Hp)
    as (_ & _ & Hyoung).
  destruct Hold as [Hgone Htimer]; [vm_compute; reflexivity|].
  destruct Hyoung as [Hkept _]; [vm_compute; discriminate|].
  split; [exact Hgone|]. split; [exact (Htimer 1%nat eq_refl)|].
  split; [exact Hfl|]. exact (eq_trans Hkept (eq_sym Hp)).
Defined.

(** An index entry whose stream is missing is swept, whatever [now]. *)
Example prune_sweeps_dangling :
  let w := @set_msgidToStreamId Samples.types
             (<["m9" := "gone"]> (msgidToStreamId Samples.one_stream))
             Samples.one_stream in
  msgidToStreamId w = {[ "m1" := "aa01"; "m9" := "gone" ]} ∧
  msgidToStreamId (prune 2000 w) = {[ "m1" := "aa01" ]}.
Proof. vm_compute. split; reflexivity. Qed.

End Scenarios.

(** ** Further properties of the stream store *)

Section StoreInvariants.
Context `{WecomTypes}.
Import StreamStore.

Lemma map_eq_Some `{Countable K} {A} (m1 m2 : gmap K A) :
  (∀ i x, m1 !! i = Some x ↔ m2 !! i = Some x) → m1 = m2.
Proof. intros Hl. apply map_eq. intros i. apply option_eq. apply Hl. Qed.

Lemma store_eq (a b : t) :
  streams a = streams b → msgidToStreamId a = msgidToStreamId b →
  pendingInbounds a = pendingInbounds b → onFlush a = onFlush b →
  timers a = timers b → nextTimer a = nextTimer b → flushed a = flushed b →
  a = b.
Proof. destruct a, b. simpl. congruence. Qed.

Lemma run_snoc ops op (w : t) :
  StreamOps.run (ops ++ [op]) w = StreamOps.step (StreamOps.run ops w) op.
Proof. unfold StreamOps.run. by rewrite foldl_app. Qed.

(** A property kept by every step holds after every run. *)
Lemma run_invariant (P : t → Prop) ops (w : t) :
  P w → (∀ w' op, P w' → P (StreamOps.step w' op)) → P (StreamOps.run ops w).
Proof.
  intros Hw Hstep. induction ops as [|op ops IH] using rev_ind; [done|].
  rewrite run_snoc. by apply Hstep.
Qed.

Lemma createStream_streams sid clock m (w : t) :
  streams (createStream sid clock m w).2 =
    <[sid := StreamState.mk sid m (clock 0%nat) (clock 1%nat) false false ""]> (streams w).
Proof.
  unfold createStream. destruct m as [m|]; [|done]. by destruct (Js.truthy_string m).
Qed.

Lemma createStream_index sid clock m (w : t) :
  msgidToStreamId (createStream sid clock m w).2 =
    match m with
    | Some i => if Js.truthy_string i then <[i := sid]> (msgidToStreamId w)
                else msgidToStreamId w
    | None => msgidToStreamId w
    end.
Proof.
  unfold createStream. destruct m as [m|]; [|done]. by destruct (Js.truthy_string m).
Qed.

Lemma createStream_rest sid clock m (w : t) :
  pendingInbounds (createStream sid clock m w).2 = pendingInbounds w ∧
  onFlush (createStream sid clock m w).2 = onFlush w ∧
  timers (createStream sid clock m w).2 = timers w ∧
  nextTimer (createStream sid clock m w).2 = nextTimer w ∧
  flushed (createStream sid clock m w).2 = flushed w.
Proof.
  unfold createStream. destruct m as [m|]; [|done]. by destruct (Js.truthy_string m).
Qed.

Lemma updateStream_streams sid mutator now (w : t) i :
  is_Some (streams (updateStream sid mutator now w).1 !! i) ↔ is_Some (streams w !! i).
Proof.
  unfold updateStream. destruct (streams w !! sid) as [s|] eqn:Hs; [|done].
  destruct (mutator s) as [s' [err|]]; simpl;
    (destruct (decide (i = sid)) as [->|Hne];
     [rewrite lookup_insert_eq, Hs; split; eauto
     |by rewrite lookup_insert_ne]).
Qed.

Lemma updateStream_rest sid mutator now (w : t) :
  msgidToStreamId (updateStream sid mutator now w).1 = msgidToStreamId w ∧
  pendingInbounds (updateStream sid mutator now w).1 = pendingInbounds w ∧
  onFlush (updateStream sid mutator now w).1 = onFlush w ∧
  timers (updateStream sid mutator now w).1 = timers w ∧
  nextTimer (updateStream sid mutator now w).1 = nextTimer w ∧
  flushed (updateStream sid mutator now w).1 = flushed w.
Proof.
  unfold updateStream. destruct (streams w !! sid) as [s|]; [|done].
  by destruct (mutator s) as [s' [err|]].
Qed.

Lemma flushPending_registry key (w : t) :
  streams (flushPending key w) = streams w ∧
  msgidToStreamId (flushPending key w) = msgidToStreamId w ∧
  onFlush (flushPending key w) = onFlush w ∧
  nextTimer (flushPending key w) = nextTimer w.
Proof.
  unfold flushPending. destruct (pendingInbounds w !! key) as [g|]; [|done].
  destruct (PendingInbound.timeout g); simpl;
    destruct (onFlush w) eqn:Hf; simpl; by rewrite ?Hf.
Qed.

Lemma fireTimer_registry h (w : t) :
  streams (fireTimer h w) = streams w ∧
  msgidToStreamId (fireTimer h w) = msgidToStreamId w ∧
  onFlush (fireTimer h w) = onFlush w ∧
  nextTimer (fireTimer h w) = nextTimer w.
Proof.
  unfold fireTimer. destruct (timers w !! h) as [tm|]; [|done].
  apply (flushPending_registry _ (clearTimeout h w)).
Qed.

Lemma addPendingMessage_registry params sid clock (w : t) :
  let c := createStream sid clock (inbound_msgid (PendingParams.msg params)) w in
  let r := addPendingMessage params sid clock w in
  match pendingInbounds w !! PendingParams.pendingKey params with
  | Some _ => streams r.2 = streams w ∧ msgidToStreamId r.2 = msgidToStreamId w
  | None => streams r.2 = streams c.2 ∧ msgidToStreamId r.2 = msgidToStreamId c.2
  end.
Proof.
  intros c r. destruct (pendingInbounds w !! _) as [g|] eqn:Hg.
  - unfold r. by rewrite (addPendingMessage_existing _ _ _ _ _ Hg).
  - unfold r. by rewrite (addPendingMessage_fresh _ _ _ _ Hg).
Qed.

Lemma createStream_index_live sid clock m (w : t) :
  index_live w → index_live (createStream sid clock m w).2.
Proof.
  intros Hl i id. rewrite createStream_index, createStream_streams. intros Hi.
  destruct (decide (id = sid)) as [->|Hne]; [rewrite lookup_insert_eq; eauto|].
  rewrite lookup_insert_ne by done. apply (Hl i).
  destruct m as [j|]; [|done]. destruct (Js.truthy_string j); [|done].
  destruct (decide (j = i)) as [->|Hji].
  - rewrite lookup_insert_eq in Hi. congruence.
  - by rewrite lookup_insert_ne in Hi.
Qed.

Lemma step_index_live (w : t) op :
  index_live w → index_live (StreamOps.step w op).
Proof.
  intros Hl. destruct op; unfold StreamOps.step, markStarted, markFinished.
  - done.
  - by apply createStream_index_live.
  - intros i id. destruct (updateStream_rest streamId mutator now w) as (-> & _).
    rewrite updateStream_streams. apply Hl.
  - intros i id. destruct (updateStream_rest streamId
      (λ s, (StreamState.set_started true s, None)) now w) as (-> & _).
    rewrite updateStream_streams. apply Hl.
  - intros i id. destruct (updateStream_rest streamId
      (λ s, (StreamState.set_finished true s, None)) now w) as (-> & _).
    rewrite updateStream_streams. apply Hl.
  - pose proof (addPendingMessage_registry params streamId clock w) as Hr.
    simpl in Hr. intros i id.
    destruct (pendingInbounds w !! PendingParams.pendingKey params).
    + destruct Hr as [-> ->]. apply Hl.
    + destruct Hr as [-> ->]. by apply createStream_index_live.
  - intros i id. destruct (fireTimer_registry h w) as (-> & -> & _). apply Hl.
  - intros i id Hi. by apply prune_index_lookup in Hi as [_ ?].
Qed.

Lemma step_no_empty_id (w : t) op :
  msgidToStreamId w !! "" = None → msgidToStreamId (StreamOps.step w op) !! "" = None.
Proof.
  assert (Hc : ∀ sid clock m (w' : t), msgidToStreamId w' !! "" = None →
               msgidToStreamId (createStream sid clock m w').2 !! "" = None).
  { intros sid clock m w' Hw'. rewrite createStream_index.
    destruct m as [j|]; [|done]. destruct (Js.truthy_string j) eqn:Hj; [|done].
    apply truthy_string_true in Hj. by rewrite lookup_insert_ne. }
  intros Hn. destruct op; unfold StreamOps.step, markStarted, markFinished.
  - done.
  - exact (Hc streamId clock msgid w Hn).
  - by destruct (updateStream_rest streamId mutator now w) as (-> & _).
  - by destruct (updateStream_rest streamId
      (λ s, (StreamState.set_started true s, None)) now w) as (-> & _).
  - by destruct (updateStream_rest streamId
      (λ s, (StreamState.set_finished true s, None)) now w) as (-> & _).
  - pose proof (addPendingMessage_registry params streamId clock w) as Hr.
    simpl in Hr. destruct (pendingInbounds w !! PendingParams.pendingKey params).
    + by destruct Hr as [_ ->].
    + destruct Hr as [_ ->]. exact (Hc streamId clock _ w Hn).
  - by destruct (fireTimer_registry h w) as (_ & -> & _).
  - destruct (msgidToStreamId (prune now w) !! "") as [id|] eqn:Hi; [|done].
    apply prune_index_lookup in Hi as [Hi _]. congruence.
Qed.

(** X1: in every store reached from [new], whatever the calls and the
    timers that fired, each entry of the message-id index points at a
    stream that is in the stream map: [getStreamByMsgId] never answers
    with the id of a stream [getStream] does not know. *)
Theorem reachable_index_live (ops : list StreamOps.Op) (m id : string) :
  getStreamByMsgId m (StreamOps.run ops new) = Some id →
  is_Some (getStream id (StreamOps.run ops new)).
Proof.
  unfold getStreamByMsgId, getStream. revert m id.
  apply (run_invariant index_live); [|apply step_index_live].
  intros m id. simpl. by rewrite lookup_empty.
Qed.

(** X2: the empty string is never a key of the index: in every store
    reached from [new], [getStreamByMsgId("")] is absent, also after
    streams were created with the message id [""]. *)
Theorem reachable_no_empty_id (ops : list StreamOps.Op) :
  getStreamByMsgId "" (StreamOps.run ops new) = None.
Proof.
  unfold getStreamByMsgId.
  apply (run_invariant (λ w, msgidToStreamId w !! "" = None)); [done|].
  apply step_no_empty_id.
Qed.

(** X3: a sweep at [now1] followed by a sweep at a later [now2] leaves
    the store the later sweep alone would leave; in particular a second
    sweep at the same time changes nothing. *)
Theorem prune_prune (w : t) (now1 now2 : Z) :
  now1 ≤ now2 →
  prune now2 (prune now1 w) = prune now2 w.
Proof.
  intros Hle.
  assert (Hstreams : streams (prune now2 (prune now1 w)) = streams (prune now2 w)).
  { apply map_eq_Some. intros id s. rewrite !prune_streams_lookup.
    unfold expired. split; [tauto|]. intros [Hs Hne]. repeat split; try done. lia. }
  apply store_eq.
  - done.
  - apply map_eq_Some. intros m id. rewrite !prune_index_lookup, Hstreams.
    split; [tauto|]. intros [Hm [s Hs]]. repeat split; eauto.
    apply prune_streams_lookup in Hs as [Hs Hne]. exists s.
    apply prune_streams_lookup. split; [done|]. unfold expired in *. lia.
  - apply map_eq_Some. intros key p. rewrite !prune_pending_lookup.
    unfold stale. split; [tauto|]. intros [Hp Hne]. repeat split; try done. lia.
  - by rewrite !prune_onFlush.
  - apply map_eq_Some. intros h tm. rewrite !prune_timers_lookup. split.
    + intros [[Htm Hno1] Hno2]. split; [done|].
      intros (key & p & Hp & Hst & Hh).
      destruct (decide (stale now1 p)) as [Hst1|Hst1].
      * apply Hno1. by exists key, p.
      * apply Hno2. exists key, p. split; [|done].
        by apply prune_pending_lookup.
    + intros [Htm Hno]. split; [split; [done|]|].
      * intros (key & p & Hp & Hst & Hh). apply Hno. exists key, p.
        split; [done|]. split; [|done]. unfold stale in *. lia.
      * intros (key & p & Hp & Hst & Hh). apply Hno. exists key, p.
        apply prune_pending_lookup in Hp as [Hp _]. done.
  - by rewrite !prune_nextTimer.
  - by rewrite !prune_flushed.
Qed.

(** X4: [prune] only removes: what it leaves in the stream map, the
    index, the pending map and the armed timers was there before, with the
    same value; the registered handler, the record of its calls and the
    next timer handle are untouched. *)
Theorem prune_only_removes (w : t) (now : Z) :
  streams (prune now w) ⊆ streams w ∧
  msgidToStreamId (prune now w) ⊆ msgidToStreamId w ∧
  pendingInbounds (prune now w) ⊆ pendingInbounds w ∧
  timers (prune now w) ⊆ timers w ∧
  onFlush (prune now w) = onFlush w ∧
  flushed (prune now w) = flushed w ∧
  nextTimer (prune now w) = nextTimer w.
Proof.
  repeat split; try (by rewrite prune_unfold).
  - apply map_subseteq_spec. intros i x Hx.
    by apply prune_streams_lookup in Hx as [? _].
  - apply map_subseteq_spec. intros i x Hx.
    by apply prune_index_lookup in Hx as [? _].
  - apply map_subseteq_spec. intros i x Hx.
    by apply prune_pending_lookup in Hx as [? _].
  - apply map_subseteq_spec. intros i x Hx.
    by apply prune_timers_lookup in Hx as [? _].
Qed.

(** X5: the TTL of a stream runs from its last update, not from its
    creation: after [updateStream] (so after [markStarted] and
    [markFinished]) at time [t] with a mutator that returns, [prune(now)]
    keeps the updated stream iff [now - t] does not exceed the stream TTL,
    whatever the earlier timestamps of the stream were. *)
Theorem update_then_prune (w : t) (id : string) (s s' : StreamState.t)
    (mutator : Mutator) (t now : Z) :
  getStream id w = Some s →
  mutator s = (s', None) →
  getStream id (prune now (updateStream id mutator t w).1) =
    (if decide (now - t > LIMITS.STREAM_TTL_MS) then None
     else Some (StreamState.set_updatedAt t s')) ∧
  getStream id (prune now (markStarted id t w).1) =
    (if decide (now - t > LIMITS.STREAM_TTL_MS) then None
     else Some (StreamState.set_updatedAt t (StreamState.set_started true s))) ∧
  getStream id (prune now (markFinished id t w).1) =
    (if decide (now - t > LIMITS.STREAM_TTL_MS) then None
     else Some (StreamState.set_updatedAt t (StreamState.set_finished true s))).
Proof.
  unfold getStream. intros Hs Hmut.
  assert (Hgen : ∀ (f : Mutator) s1, f s = (s1, None) →
            streams (prune now (updateStream id f t w).1) !! id =
              if decide (now - t > LIMITS.STREAM_TTL_MS) then None
              else Some (StreamState.set_updatedAt t s1)).
  { intros f s1 Hf.
    assert (Hu : streams (updateStream id f t w).1 !! id =
                 Some (StreamState.set_updatedAt t s1)).
    { unfold updateStream. rewrite Hs, Hf. simpl. apply lookup_insert_eq. }
    case_decide as Hd.
    - destruct (streams (prune now _) !! id) as [x|] eqn:Hx; [|done].
      apply prune_streams_lookup in Hx as [Hx Hne].
      rewrite Hu in Hx. injection Hx as <-. unfold expired in Hne. simpl in Hne. lia.
    - apply prune_streams_lookup. split; [done|]. unfold expired. simpl. lia. }
  split; [by apply Hgen|]. split; by apply Hgen.
Qed.

(** X6: [updateStream] touches one stream and nothing else, also when
    the mutator throws: the other streams, the set of stream ids, the
    index, the pending groups, the timers and the handler's calls are as
    before. The exception that escapes is the mutator's; when it throws,
    the stream keeps what the mutator wrote and [updatedAt] is not
    refreshed. *)
Theorem updateStream_frame (w : t) (id : string) (mutator : Mutator) (now : Z) :
  let r := updateStream id mutator now w in
  dom (streams r.1) = dom (streams w) ∧
  (∀ j, j ≠ id → streams r.1 !! j = streams w !! j) ∧
  msgidToStreamId r.1 = msgidToStreamId w ∧
  pendingInbounds r.1 = pendingInbounds w ∧
  timers r.1 = timers w ∧
  flushed r.1 = flushed w ∧
  r.2 = (match streams w !! id with
         | Some s => (mutator s).2
         | None => None
         end) ∧
  (∀ s s' err, streams w !! id = Some s → mutator s = (s', Some err) →
     streams r.1 !! id = Some s').
Proof.
  intros r.
  destruct (updateStream_rest id mutator now w) as (Hi & Hp & _ & Ht & _ & Hf).
  fold r in Hi, Hp, Ht, Hf.
  split; [|split; [|repeat (split; [done|]); split]].
  - apply set_eq. intros j. rewrite !elem_of_dom. apply updateStream_streams.
  - intros j Hne. unfold r, updateStream.
    destruct (streams w !! id) as [s|]; [|done].
    destruct (mutator s) as [s' [err|]]; simpl; by rewrite lookup_insert_ne.
  - unfold r, updateStream. destruct (streams w !! id) as [s|]; [|done].
    by destruct (mutator s) as [s' [err|]].
  - intros s s' err Hs Hm. unfold r, updateStream. rewrite Hs, Hm. simpl.
    apply lookup_insert_eq.
Qed.

End StoreInvariants.

(** ** Further properties of the debounce aggregator *)

Section DebounceInvariants.
Context `{WecomTypes}.
Import StreamStore.

(** X7: in every store reached from [new], each pending group holds the
    handle of an armed timer whose callback flushes that group's key, and
    each armed timer is the one held by the group of its key: no group
    waits without a timer, no timer is left behind by a group that is
    gone, and two groups never share a timer. *)
Theorem reachable_timers_match_groups (ops : list StreamOps.Op) :
  let w := StreamOps.run ops new in
  (∀ key p, pendingInbounds w !! key = Some p →
     ∃ h delay, PendingInbound.timeout p = Some h ∧
                timers w !! h = Some (mkTimer key delay)) ∧
  (∀ h tm, timers w !! h = Some tm →
     ∃ p, pendingInbounds w !! timerKey tm = Some p ∧
          PendingInbound.timeout p = Some h) ∧
  (∀ key1 key2 p1 p2 h,
     pendingInbounds w !! key1 = Some p1 → pendingInbounds w !! key2 = Some p2 →
     PendingInbound.timeout p1 = Some h → PendingInbound.timeout p2 = Some h →
     key1 = key2).
Proof.
  intros w.
  assert (Hc : timers_consistent w) by apply run_consistent, timers_consistent_new.
  split; [|split].
  - intros key p Hp. destruct (consistent_group _ _ _ Hc Hp) as (h & d & ? & ? & _).
    by exists h, d.
  - intros h tm Htm. by destruct (consistent_timer _ _ _ Hc Htm) as (_ & ?).
  - intros key1 key2 p1 p2 h Hp1 Hp2 Hh1 Hh2.
    destruct (consistent_group _ _ _ Hc Hp1) as (h1 & d1 & ? & Ht1 & _).
    destruct (consistent_group _ _ _ Hc Hp2) as (h2 & d2 & ? & Ht2 & _).
    assert (h1 = h) as -> by congruence. assert (h2 = h) as -> by congruence.
    congruence.
Qed.

Lemma flushPending_timers_None key (w : t) h :
  timers w !! h = None → timers (flushPending key w) !! h = None.
Proof.
  intros Hh. unfold flushPending. destruct (pendingInbounds w !! key) as [g|]; [|done].
  destruct (PendingInbound.timeout g) as [h'|]; simpl;
    destruct (onFlush w) eqn:Hf; simpl; rewrite ?Hf; simpl; try done;
    by apply lookup_delete_None; right.
Qed.

(** X8: a timer fires at most once, and a cleared timer never fires:
    firing the same handle again changes nothing, and after an arrival
    re-armed the timer of a group, the handle the group held before fires
    nothing. *)
Theorem fireTimer_at_most_once (w : t) (h : nat) :
  fireTimer h (fireTimer h w) = fireTimer h w ∧
  (timers_consistent w →
   ∀ params sid clock g hold,
     pendingInbounds w !! PendingParams.pendingKey params = Some g →
     PendingInbound.timeout g = Some hold →
     fireTimer hold (addPendingMessage params sid clock w).2 =
       (addPendingMessage params sid clock w).2).
Proof.
  split.
  - apply fireTimer_unarmed. unfold fireTimer.
    destruct (timers w !! h) as [tm|] eqn:Htm; [|done].
    apply flushPending_timers_None. simpl. apply lookup_delete_eq.
  - intros Hc params sid clock g hold Hg Hh. apply fireTimer_unarmed.
    rewrite (addPendingMessage_existing _ _ _ _ _ Hg). simpl. rewrite Hh.
    destruct (consistent_group _ _ _ Hc Hg) as (h' & d & Hh' & _ & Hlt).
    assert (h' = hold) as -> by congruence.
    rewrite lookup_insert_ne by lia. apply lookup_delete_eq.
Qed.

(** X9: with no flush handler registered, the flush of a group drops it
    for good: the group and its timer are gone, the handler's record is as
    before, and a handler registered afterwards gets nothing for that key
    from a later flush. *)
Theorem flush_without_handler (w : t) (h : nat) (tm : Timer) :
  timers_consistent w →
  onFlush w = None →
  timers w !! h = Some tm →
  let w1 := fireTimer h w in
  pendingInbounds w1 !! timerKey tm = None ∧
  timers w1 !! h = None ∧
  flushed w1 = flushed w ∧
  (∀ handler,
     flushed (flushPending (timerKey tm) (setFlushHandler handler w1)) = flushed w).
Proof.
  intros Hc Hon Htm w1.
  destruct (consistent_timer _ _ _ Hc Htm) as (_ & p & Hp & Hh).
  assert (Hw1 : w1 = _) by exact (fireTimer_armed _ _ _ Hc Htm).
  rewrite (flushPending_group _ _ _ _ Hp Hh), Hon in Hw1.
  assert (Hgone : pendingInbounds w1 !! timerKey tm = None).
  { rewrite Hw1. simpl. apply lookup_delete_eq. }
  split; [done|]. split; [rewrite Hw1; simpl; apply lookup_delete_eq|].
  split; [by rewrite Hw1|].
  intros handler. rewrite flushPending_absent; [by rewrite Hw1|done].
Qed.

Lemma flushPending_payloads key (w : t) : payloads_ok w → payloads_ok (flushPending key w).
Proof.
  intros [Hg Hf]. unfold flushPending.
  destruct (pendingInbounds w !! key) as [g|] eqn:Hgk; [|done].
  assert (Hrest : ∀ k p, delete key (pendingInbounds w) !! k = Some p → payload_ok p).
  { intros k p Hk. apply lookup_delete_Some in Hk as [_ Hk]. eauto. }
  pose proof (Hg _ _ Hgk) as Hok.
  destruct (PendingInbound.timeout g) as [h|] eqn:Hh; simpl;
    destruct (onFlush w) as [hd|] eqn:Hon; simpl; rewrite ?Hon; simpl;
    (split; [done|]); simpl; try done;
    intros hd' p Hin; apply elem_of_app in Hin as [Hin|Hin]; try (by apply Hf in Hin);
    apply list_elem_of_singleton in Hin; injection Hin as -> ->; done.
Qed.

Lemma step_payloads (w : t) op : payloads_ok w → payloads_ok (StreamOps.step w op).
Proof.
  intros Hok. pose proof Hok as [Hg Hf].
  destruct op; unfold StreamOps.step, markStarted, markFinished.
  - done.
  - destruct (createStream_rest streamId clock msgid w) as (Hp & _ & _ & _ & Hfl).
    split; [by rewrite Hp|by rewrite Hfl].
  - destruct (updateStream_rest streamId mutator now w) as (_ & Hp & _ & _ & _ & Hfl).
    split; [by rewrite Hp|by rewrite Hfl].
  - destruct (updateStream_rest streamId (λ s, (StreamState.set_started true s, None))
                now w) as (_ & Hp & _ & _ & _ & Hfl).
    split; [by rewrite Hp|by rewrite Hfl].
  - destruct (updateStream_rest streamId (λ s, (StreamState.set_finished true s, None))
                now w) as (_ & Hp & _ & _ & _ & Hfl).
    split; [by rewrite Hp|by rewrite Hfl].
  - pose proof (msgid_list_spec (PendingParams.msg params)) as [_ Hlen].
    destruct (pendingInbounds w !! PendingParams.pendingKey params) as [g|] eqn:Hgk.
    + rewrite (addPendingMessage_existing _ _ _ _ _ Hgk). split; simpl; [|done].
      intros k p. destruct (decide (k = PendingParams.pendingKey params)) as [->|Hne].
      * rewrite lookup_insert_eq. intros [= <-]. destruct (Hg _ _ Hgk) as [Hne Hle].
        split; simpl.
        -- intros Happ. by apply app_eq_nil in Happ as [_ ?].
        -- rewrite !length_app. simpl. lia.
      * rewrite lookup_insert_ne by done. apply Hg.
    + rewrite (addPendingMessage_fresh _ _ _ _ Hgk). split; simpl; [|done].
      intros k p. destruct (decide (k = PendingParams.pendingKey params)) as [->|Hne].
      * rewrite lookup_insert_eq. intros [= <-]. split; simpl; [done|lia].
      * rewrite lookup_insert_ne by done. apply Hg.
  - unfold fireTimer. destruct (timers w !! h) as [tm|]; [|done].
    by apply (flushPending_payloads _ (clearTimeout h w)).
  - split.
    + intros k p Hp. apply prune_pending_lookup in Hp as [Hp _]. eauto.
    + rewrite prune_flushed. apply Hf.
Qed.

(** X10: whatever the run from [new], the flush handler is only ever
    called with a record that holds at least one fragment, no more message
    ids than fragments, and a [timeout] field reset to [null]. *)
Theorem reachable_flush_payload (ops : list StreamOps.Op) (handler : FlushHandler)
    (p : PendingInbound.t) :
  (handler, p) ∈ flushed (StreamOps.run ops new) →
  PendingInbound.contents p ≠ [] ∧
  (length (PendingInbound.msgids p) ≤ length (PendingInbound.contents p))%nat ∧
  PendingInbound.timeout p = None.
Proof.
  intros Hin.
  assert (Hok : payloads_ok (StreamOps.run ops new)).
  { apply run_invariant; [|apply step_payloads].
    split; intros ? ?; simpl; [by rewrite lookup_empty|by intros ?%elem_of_nil]. }
  destruct Hok as [_ Hf]. destruct (Hf _ _ Hin) as [[? ?] ?]. done.
Qed.

End DebounceInvariants.

Section MixedArrivals.
Context `{WecomTypes}.
Import StreamStore.

Lemma arrivals_cons (a : StreamOps.Arrival) l (w : t) :
  (StreamOps.arrivals (a :: l) w).2 =
    (StreamOps.arrivals l
       (addPendingMessage (StreamOps.params a) (StreamOps.streamId a)
          (StreamOps.clock a) w).2).2.
Proof.
  simpl. destruct (addPendingMessage _ _ _ w) as [r w1]. simpl.
  by destruct (StreamOps.arrivals l w1).
Qed.

(** Arrivals for any keys, on a store that has a group for [key]. *)
Lemma mixed_arrivals_existing key (l : list StreamOps.Arrival) :
  ∀ (w : t) g,
    timers_consistent w →
    pendingInbounds w !! key = Some g →
    ∃ g',
      pendingInbounds (StreamOps.arrivals l w).2 !! key = Some g' ∧
      PendingInbound.streamId g' = PendingInbound.streamId g ∧
      PendingInbound.msg g' = PendingInbound.msg g ∧
      PendingInbound.createdAt g' = PendingInbound.createdAt g ∧
      PendingInbound.contents g' =
        PendingInbound.contents g ++ map arrival_content (for_key key l) ∧
      PendingInbound.msgids g' =
        PendingInbound.msgids g ++ mjoin (map arrival_msgids (for_key key l)) ∧
      flushed (StreamOps.arrivals l w).2 = flushed w.
Proof.
  induction l as [|a l IH]; intros w g Hc Hg.
  - exists g. simpl. by rewrite !app_nil_r.
  - rewrite arrivals_cons.
    pose proof (addPendingMessage_consistent (StreamOps.params a)
                  (StreamOps.streamId a) (StreamOps.clock a) w Hc) as Hc1.
    unfold for_key. rewrite filter_cons.
    destruct (decide (arrival_key a = key)) as [Hk|Hk].
    + subst key.
      destruct (arrival_existing a w g Hc Hg) as (_ & _ & Hfl & _ & _).
      unfold arrival_key in Hg.
      pose proof (addPendingMessage_existing _ (StreamOps.streamId a)
                    (StreamOps.clock a) _ _ Hg) as Heq.
      set (w1 := (addPendingMessage _ _ _ w).2) in *.
      assert (Hg1 : ∃ g1, pendingInbounds w1 !! arrival_key a = Some g1 ∧
                PendingInbound.streamId g1 = PendingInbound.streamId g ∧
                PendingInbound.msg g1 = PendingInbound.msg g ∧
                PendingInbound.createdAt g1 = PendingInbound.createdAt g ∧
                PendingInbound.contents g1 =
                  PendingInbound.contents g ++ [arrival_content a] ∧
                PendingInbound.msgids g1 =
                  PendingInbound.msgids g ++ arrival_msgids a).
      { eexists. unfold w1. rewrite Heq. simpl. split; [apply lookup_insert_eq|done]. }
      destruct Hg1 as (g1 & Hg1 & Hs1 & Hm1 & Hcr1 & Hc1' & Hi1).
      destruct (IH w1 g1 Hc1 Hg1) as (g' & Hg' & Hs & Hm & Hcr & Hcont & Hids & Hfl').
      exists g'. split; [done|].
      rewrite Hs, Hm, Hcr, Hcont, Hids, Hfl', Hs1, Hm1, Hcr1, Hc1', Hi1, Hfl.
      simpl. rewrite <- !app_assoc. done.
    + destruct (arrival_other_key a w key Hc Hk) as (Hsame & Hfl & _).
      set (w1 := (addPendingMessage _ _ _ w).2) in *.
      rewrite <- Hsame in Hg.
      destruct (IH w1 g Hc1 Hg) as (g' & Hg' & Hs & Hm & Hcr & Hcont & Hids & Hfl').
      exists g'. by rewrite Hfl', Hfl.
Qed.

(** X11: arrivals for different keys do not mix. After any list of
    arrivals, for whatever keys, on a store reached from [new] that had no
    group for [key], the group of [key] holds the fragments and the
    message ids of the arrivals for [key] only, in their order, under the
    stream id and with the message of the first of them; with no arrival
    for [key] there is no group. The flush handler is not called. *)
Theorem arrivals_grouped_by_key (w : t) (key : string) (l : list StreamOps.Arrival) :
  timers_consistent w →
  pendingInbounds w !! key = None →
  flushed (StreamOps.arrivals l w).2 = flushed w ∧
  match for_key key l with
  | [] => pendingInbounds (StreamOps.arrivals l w).2 !! key = None
  | a :: rest =>
      ∃ g, pendingInbounds (StreamOps.arrivals l w).2 !! key = Some g ∧
           PendingInbound.streamId g = StreamOps.streamId a ∧
           PendingInbound.msg g = PendingParams.msg (StreamOps.params a) ∧
           PendingInbound.createdAt g = StreamOps.clock a 2%nat ∧
           PendingInbound.contents g = map arrival_content (a :: rest) ∧
           PendingInbound.msgids g = mjoin (map arrival_msgids (a :: rest))
  end.
Proof.
  revert w. induction l as [|a l IH]; intros w Hc Hnone; [done|].
  rewrite arrivals_cons.
  pose proof (addPendingMessage_consistent (StreamOps.params a)
                (StreamOps.streamId a) (StreamOps.clock a) w Hc) as Hc1.
  unfold for_key. rewrite filter_cons.
  destruct (decide (arrival_key a = key)) as [Hk|Hk].
  - subst key.
    destruct (arrival_fresh a w Hc Hnone) as (_ & _ & Hfl & _ & _).
    unfold arrival_key in Hnone.
    pose proof (addPendingMessage_fresh _ (StreamOps.streamId a)
                  (StreamOps.clock a) _ Hnone) as Heq.
    set (w1 := (addPendingMessage _ _ _ w).2) in *.
    assert (Hg1 : ∃ g1, pendingInbounds w1 !! arrival_key a = Some g1 ∧
              PendingInbound.streamId g1 = StreamOps.streamId a ∧
              PendingInbound.msg g1 = PendingParams.msg (StreamOps.params a) ∧
              PendingInbound.createdAt g1 = StreamOps.clock a 2%nat ∧
              PendingInbound.contents g1 = [arrival_content a] ∧
              PendingInbound.msgids g1 = arrival_msgids a).
    { eexists. unfold w1. rewrite Heq. simpl. split; [apply lookup_insert_eq|done]. }
    destruct Hg1 as (g1 & Hg1 & Hs1 & Hm1 & Hcr1 & Hc1' & Hi1).
    destruct (mixed_arrivals_existing _ l w1 g1 Hc1 Hg1)
      as (g' & Hg' & Hs & Hm & Hcr & Hcont & Hids & Hfl').
    split; [by rewrite Hfl', Hfl|].
    exists g'. split; [done|].
    by rewrite Hs, Hm, Hcr, Hcont, Hids, Hs1, Hm1, Hcr1, Hc1', Hi1.
  - destruct (arrival_other_key a w key Hc Hk) as (Hsame & Hfl & _).
    set (w1 := (addPendingMessage _ _ _ w).2) in *.
    rewrite <- Hsame in Hnone.
    destruct (IH w1 Hc1 Hnone) as [Hfl' Hrest].
    split; [by rewrite Hfl', Hfl|]. exact Hrest.
Qed.

End MixedArrivals.

(** ** Further properties of the reply-address store *)

Section ReplyInvariants.
Import ActiveReplyStore.

Lemma reply_prune_fold cutoff l (M : gmap string ActiveReplyState.t) id r :
  foldl (prune_body cutoff) M l !! id = Some r ↔
  M !! id = Some r ∧ ¬ ∃ r', (id, r') ∈ l ∧ ActiveReplyState.createdAt r' < cutoff.
Proof.
  induction l as [|[id0 r0] l IH] using rev_ind.
  - simpl. split; [|by intros [? _]].
    intros Hs. split; [done|]. intros (? & Hin & _). by apply elem_of_nil in Hin.
  - rewrite foldl_app. simpl. unfold prune_body at 1. simpl.
    assert (Hsnoc : (∃ r', (id, r') ∈ l ++ [(id0, r0)] ∧
                           ActiveReplyState.createdAt r' < cutoff) ↔
                    (∃ r', (id, r') ∈ l ∧ ActiveReplyState.createdAt r' < cutoff) ∨
                    (id = id0 ∧ ActiveReplyState.createdAt r0 < cutoff)).
    { split.
      - intros (r' & Hin & Hlt).
        apply elem_of_app in Hin as [Hin|Hin]; [left; by eauto|].
        apply list_elem_of_singleton in Hin. injection Hin as -> ->. by right.
      - intros [(r' & Hin & Hlt)|(-> & Hlt)].
        + exists r'. split; [|done]. apply elem_of_app. by left.
        + exists r0. split; [|done]. apply elem_of_app. right.
          by apply list_elem_of_singleton. }
    rewrite Hsnoc. case_bool_decide as Hold; [|rewrite IH; tauto].
    destruct (decide (id = id0)) as [->|Hne].
    + rewrite lookup_delete_eq. split; [done|]. intros [_ Hno]. exfalso. auto.
    + rewrite lookup_delete_ne by done. rewrite IH. tauto.
Qed.

Lemma reply_prune_lookup now (st : t) id r :
  activeReplies (prune now st) !! id = Some r ↔
  activeReplies st !! id = Some r ∧
  ¬ ActiveReplyState.createdAt r < now - LIMITS.ACTIVE_REPLY_TTL_MS.
Proof.
  unfold prune. simpl. rewrite reply_prune_fold.
  split; intros [Hr Hno]; (split; [done|]).
  - intros Hlt. apply Hno. exists r. split; [|done]. by apply elem_of_map_to_list.
  - intros (r' & Hin & Hlt). apply elem_of_map_to_list in Hin. congruence.
Qed.

(** What [use] does to the record of its stream. *)
Lemma use_record sid fn now (st : t) sid' :
  activeReplies (after (use sid fn now st)) !! sid' =
    if decide (sid' = sid) then
      match activeReplies st !! sid with
      | Some r =>
          if negb (Js.truthy_string (ActiveReplyState.response_url r)) then Some r
          else match policy st, Js.truthy_number (ActiveReplyState.usedAt r) with
               | once, true => Some r
               | _, _ =>
                   match fn (ActiveReplyState.response_url r)
                            (ActiveReplyState.proxyUrl r) with
                   | None => Some (ActiveReplyState.set_usedAt now r)
                   | Some err =>
                       Some (ActiveReplyState.set_lastError (Js.error_text err) r)
                   end
               end
      | None => None
      end
    else activeReplies st !! sid'.
Proof.
  unfold use. case_decide as Hd; [subst sid'|];
    repeat case_match; simpl in *; simplify_eq;
    rewrite ?lookup_insert_eq, ?lookup_insert_ne by done; congruence.
Qed.

Lemma use_fields (st : t) (sid sid' : string) (fn : Deliver) (now : Z) :
  let st' := after (use sid fn now st) in
  policy st' = policy st ∧
  getUrl sid' st' = getUrl sid' st ∧
  ActiveReplyState.proxyUrl <$> activeReplies st' !! sid' =
    ActiveReplyState.proxyUrl <$> activeReplies st !! sid' ∧
  ActiveReplyState.createdAt <$> activeReplies st' !! sid' =
    ActiveReplyState.createdAt <$> activeReplies st !! sid' ∧
  (sid' ≠ sid → activeReplies st' !! sid' = activeReplies st !! sid').
Proof.
  intros st'. split; [apply use_policy|].
  unfold getUrl, st'. rewrite use_record.
  case_decide as Hd; [subst sid'|done].
  split; [|split; [|split; [|done]]]; by repeat case_match.
Qed.

(** X12: [use] never binds, unbinds or redirects an address: after a
    [use] on any stream, every stream has the URL, the proxy and the
    creation time it had; only [usedAt] and [lastError] of the stream used
    can differ. *)
Theorem use_keeps_addresses (st : t) (sid sid' : string) (fn : Deliver) (now : Z) :
  let st' := after (use sid fn now st) in
  policy st' = policy st ∧
  getUrl sid' st' = getUrl sid' st ∧
  ActiveReplyState.proxyUrl <$> activeReplies st' !! sid' =
    ActiveReplyState.proxyUrl <$> activeReplies st !! sid' ∧
  ActiveReplyState.createdAt <$> activeReplies st' !! sid' =
    ActiveReplyState.createdAt <$> activeReplies st !! sid' ∧
  (sid' ≠ sid → activeReplies st' !! sid' = activeReplies st !! sid').
Proof.
  intros st'. split; [apply use_policy|].
  unfold getUrl, st'. rewrite use_record.
  case_decide as Hd; [subst sid'|done].
  split; [|split; [|split; [|done]]]; by repeat case_match.
Qed.

(** X13: [prune(now)] of the reply-address store removes a record iff
    [now] minus its creation time exceeds the active-reply TTL of sixty
    minutes, and leaves the others as they are. Using an address does not
    extend its life: after a [use] the record goes at the same time. *)
Theorem reply_prune_ttl (st : t) (now : Z) (sid : string) (r : ActiveReplyState.t)
    (fn : Deliver) (tu : Z) :
  activeReplies st !! sid = Some r →
  LIMITS.ACTIVE_REPLY_TTL_MS = 3600000 ∧
  policy (prune now st) = policy st ∧
  (activeReplies (prune now st) !! sid = None ↔
     now - ActiveReplyState.createdAt r > LIMITS.ACTIVE_REPLY_TTL_MS) ∧
  (activeReplies (prune now st) !! sid = Some r ↔
     now - ActiveReplyState.createdAt r ≤ LIMITS.ACTIVE_REPLY_TTL_MS) ∧
  (getUrl sid (prune now (after (use sid fn tu st))) = None ↔
     now - ActiveReplyState.createdAt r > LIMITS.ACTIVE_REPLY_TTL_MS).
Proof.
  intros Hr. split; [done|]. split; [done|].
  assert (Hgen : ∀ (st0 : t) r0, activeReplies st0 !! sid = Some r0 →
            (activeReplies (prune now st0) !! sid = None ↔
             now - ActiveReplyState.createdAt r0 > LIMITS.ACTIVE_REPLY_TTL_MS)).
  { intros st0 r0 Hr0. split.
    - intros Hnone.
      destruct (decide (now - ActiveReplyState.createdAt r0 >
                        LIMITS.ACTIVE_REPLY_TTL_MS)); [done|].
      assert (activeReplies (prune now st0) !! sid = Some r0); [|congruence].
      apply reply_prune_lookup. split; [done|lia].
    - intros Hgt. destruct (activeReplies (prune now st0) !! sid) as [x|] eqn:Hx; [|done].
      apply reply_prune_lookup in Hx as [Hx Hne]. assert (x = r0) as -> by congruence. lia. }
  split; [by apply Hgen|]. split.
  - rewrite reply_prune_lookup. split; [intros [_ ?]; lia|]. intros ?. split; [done|lia].
  - unfold getUrl. rewrite fmap_None.
    destruct (use_fields st sid sid fn tu) as (_ & _ & _ & Hcr & _).
    simpl in Hcr. rewrite Hr in Hcr. simpl in Hcr.
    destruct (activeReplies (after (use sid fn tu st)) !! sid) as [r1|] eqn:Hr1;
      [|discriminate].
    simpl in Hcr. injection Hcr as Hcr. rewrite <- Hcr. by apply Hgen.
Qed.

Lemma step_urls_nonblank (st : t) op :
  (∀ sid r, activeReplies st !! sid = Some r → ActiveReplyState.response_url r ≠ "") →
  ∀ sid r, activeReplies (ReplyOps.step st op) !! sid = Some r →
           ActiveReplyState.response_url r ≠ "".
Proof.
  intros Hst sid r. destruct op as [sid0 url proxy now|sid0 fn now|now]; simpl.
  - unfold store. destruct url as [u|]; simpl; [|apply Hst].
    destruct (Js.truthy_string (Js.trim u)) eqn:Hu; [|apply Hst]. simpl.
    destruct (decide (sid = sid0)) as [->|Hne].
    + rewrite lookup_insert_eq. intros [= <-]. simpl. by apply truthy_string_true.
    + rewrite lookup_insert_ne by done. apply Hst.
  - intros Hr.
    pose proof (use_fields st sid0 sid fn now) as (_ & Hurl & _).
    unfold getUrl in Hurl. simpl in Hurl. rewrite Hr in Hurl. simpl in Hurl.
    destruct (activeReplies st !! sid) as [r0|] eqn:Hr0; [|discriminate].
    simpl in Hurl. injection Hurl as ->. by apply (Hst sid).
  - intros Hr. apply reply_prune_lookup in Hr as [Hr _]. by apply (Hst sid).
Qed.

Lemma reply_run_invariant (P : t → Prop) ops (st : t) :
  P st → (∀ st' op, P st' → P (ReplyOps.step st' op)) → P (ReplyOps.run ops st).
Proof.
  intros Hst Hstep. induction ops as [|op ops IH] using rev_ind; [done|].
  unfold ReplyOps.run in *. rewrite foldl_app. by apply Hstep.
Qed.

(** X14: in every store reached from a new one by [store], [use] and
    [prune], no record holds an empty URL: [getUrl] never answers [""].
    So in such a store with the [multi] policy, a [use] on a stream that
    has an address always calls the callback. *)
Theorem reachable_urls_nonblank (p : option Policy) (ops : list ReplyOps.Op)
    (sid : string) :
  let st := ReplyOps.run ops (new p) in
  getUrl sid st ≠ Some "" ∧
  (∀ fn now, policy st = multi → is_Some (getUrl sid st) →
             delivered (use sid fn now st) ≠ []).
Proof.
  intros st.
  assert (Hinv : ∀ sid r, activeReplies st !! sid = Some r →
                          ActiveReplyState.response_url r ≠ "").
  { unfold st.
    apply (reply_run_invariant
             (λ st0, ∀ sid r, activeReplies st0 !! sid = Some r →
                              ActiveReplyState.response_url r ≠ "")).
    - intros ? ?. simpl. by rewrite lookup_empty.
    - intros st' op Hst'. by apply step_urls_nonblank. }
  unfold getUrl. split.
  - destruct (activeReplies st !! sid) as [r|] eqn:Hr; [|done]. simpl.
    intros [= Hu]. by apply (Hinv sid r).
  - intros fn now Hp [u Hu].
    destruct (activeReplies st !! sid) as [r|] eqn:Hr; [|done].
    rewrite (use_multi _ _ _ _ _ Hp Hr (Hinv _ _ Hr)). by destruct (fn _ _).
Qed.

Lemma uses_multi sid fn (ts : list Z) :
  ∀ (st : t) r,
    policy st = multi →
    activeReplies st !! sid = Some r →
    ActiveReplyState.response_url r ≠ "" →
    fn (ActiveReplyState.response_url r) (ActiveReplyState.proxyUrl r) = None →
    map outcome (uses sid fn ts st) = map (λ _, Resolved) ts ∧
    map delivered (uses sid fn ts st) =
      map (λ _, [(ActiveReplyState.response_url r, ActiveReplyState.proxyUrl r)]) ts ∧
    map (λ u, ActiveReplyState.usedAt <$> activeReplies (after u) !! sid)
        (uses sid fn ts st) = map (λ now, Some (Some now)) ts.
Proof.
  induction ts as [|now ts IH]; intros st r Hp Hr Hu Hfn; [done|].
  simpl. rewrite (use_multi _ _ _ _ _ Hp Hr Hu), Hfn. simpl.
  rewrite lookup_insert_eq. simpl.
  set (st1 := mk _ _).
  destruct (IH st1 (ActiveReplyState.set_usedAt now r)) as (Ho & Hd & Hused);
    try done; [apply lookup_insert_eq|].
  simpl in Hd. by rewrite Ho, Hd, Hused.
Qed.

(** X15: under the [multi] policy, any number of [use] calls in a row on
    a bound address, with a callback that resolves, all resolve; each
    calls the callback once with the same URL and proxy, and each writes
    its own time to [usedAt]. *)
Theorem multi_uses_all_resolve (st : t) (sid : string) (r : ActiveReplyState.t)
    (fn : Deliver) (ts : list Z) :
  policy st = multi →
  activeReplies st !! sid = Some r →
  ActiveReplyState.response_url r ≠ "" →
  fn (ActiveReplyState.response_url r) (ActiveReplyState.proxyUrl r) = None →
  length (uses sid fn ts st) = length ts ∧
  map outcome (uses sid fn ts st) = map (λ _, Resolved) ts ∧
  map delivered (uses sid fn ts st) =
    map (λ _, [(ActiveReplyState.response_url r, ActiveReplyState.proxyUrl r)]) ts ∧
  map (λ u, ActiveReplyState.usedAt <$> activeReplies (after u) !! sid)
      (uses sid fn ts st) = map (λ now, Some (Some now)) ts.
Proof.
  intros Hp Hr Hu Hfn. split; [|by apply uses_multi].
  destruct (uses_multi sid fn ts st r Hp Hr Hu Hfn) as (Ho & _).
  apply (f_equal length) in Ho. by rewrite !length_map in Ho.
Qed.

Lemma spent_use_silent sid fn now (st : t) :
  spent sid st → delivered (use sid fn now st) = [].
Proof.
  intros [Hp Hr]. unfold use.
  destruct (activeReplies st !! sid) as [r|]; [|done].
  destruct (negb _); [done|]. by rewrite Hp, (Hr r).
Qed.

Lemma spent_step sid (st : t) op :
  spent sid st → ¬ rebinds sid op → spent sid (ReplyOps.step st op).
Proof.
  intros [Hp Hr] Hop. destruct op as [sid0 url proxy now|sid0 fn now|now]; simpl in *.
  - split; [by rewrite store_policy|]. intros r.
    unfold store. destruct url as [u|]; simpl; [|apply Hr].
    destruct (Js.truthy_string (Js.trim u)); [|apply Hr]. simpl.
    rewrite lookup_insert_ne by done. apply Hr.
  - split; [by rewrite use_policy|]. intros r. rewrite use_record.
    case_decide as Hd; [subst sid0|apply Hr].
    destruct (activeReplies st !! sid) as [r0|] eqn:Hr0; [|done].
    rewrite Hp, (Hr r0 eq_refl). destruct (negb _); intros [= <-]; by apply Hr.
  - split; [done|]. intros r Hpr. apply reply_prune_lookup in Hpr as [Hpr _].
    by apply Hr.
Qed.

(** X16: under the [once] policy, once a [use] of a stream's address has
    gone through, no later [use] of that stream calls a callback, whatever
    is stored, used or pruned for other streams in between, until [store]
    binds the stream again. *)
Theorem once_no_second_delivery (st : t) (sid : string) (r : ActiveReplyState.t)
    (ops : list ReplyOps.Op) :
  policy st = once →
  activeReplies st !! sid = Some r →
  Js.truthy_number (ActiveReplyState.usedAt r) = true →
  Forall (λ op, ¬ rebinds sid op) ops →
  ∀ call, (sid, call) ∉ deliveries ops st.
Proof.
  intros Hp Hr Hused Hops.
  assert (Hsp : spent sid st).
  { split; [done|]. intros r' Hr'. congruence. }
  clear Hp Hr Hused r. revert st Hsp.
  induction ops as [|op ops IH]; intros st Hsp call; [by intros ?%elem_of_nil|].
  apply Forall_cons in Hops as [Hop Hops]. simpl.
  intros Hin. apply elem_of_app in Hin as [Hin|Hin].
  - destruct op as [sid0 url proxy now|sid0 fn now|now];
      try (by apply elem_of_nil in Hin).
    apply list_elem_of_fmap in Hin as (c & [= <- <-] & Hc).
    rewrite (spent_use_silent _ _ _ _ Hsp) in Hc. by apply elem_of_nil in Hc.
  - by apply (IH Hops (ReplyOps.step st op) (spent_step _ _ _ Hsp Hop) call).
Qed.

End ReplyInvariants.

(** ** Outbound adapter *)

Section OutboundPure.
Import Outbound.

Example isRemoteUrl_cases :
  isRemoteUrl "https://example.com/a.png" = true ∧
  isRemoteUrl "HTTP://EXAMPLE.COM" = true ∧
  isRemoteUrl "http:/example.com" = false ∧
  isRemoteUrl " https://example.com" = false ∧
  isRemoteUrl "/tmp/https://x" = false.
Proof. repeat split. Qed.

Example lastSegment_cases :
  remoteFilename "/media/cat.png" = "cat.png" ∧
  remoteFilename "/media/" = "media" ∧
  remoteFilename "" = "media" ∧
  remoteFilename "plain" = "plain".
Proof. repeat split. Qed.




Lemma slice0_length n s : (String.length (JsString.slice0 n s) ≤ n)%nat.
Proof.
  revert s. induction n as [|n IH]; intros [|c s]; simpl; try lia.
  specialize (IH s). lia.
Qed.

Lemma slice0_slice0 n m s :
  (n ≤ m)%nat → JsString.slice0 n (JsString.slice0 m s) = JsString.slice0 n s.
Proof.
  revert m s. induction n as [|n IH]; intros [|m] [|c s] Hle; simpl; try done; try lia.
  f_equal. apply IH. lia.
Qed.

(** X20: a caption goes with a media message only for a video whose text
    is not blank; its title is the first 64 code units of the trimmed
    text and its description the first 512, so the title is not empty, is
    at most 64 long and starts the description, which is at most 512
    long. *)
Theorem caption_bounds (mediaType : MediaType) (text : option string) :
  match caption mediaType text with
  | Some (title, description) =>
      mediaType = video ∧
      (∃ t, text = Some t ∧ Js.trim t ≠ "" ∧
            title = JsString.slice0 64 (Js.trim t) ∧
            description = JsString.slice0 512 (Js.trim t)) ∧
      title ≠ "" ∧
      (String.length title ≤ 64)%nat ∧
      (String.length description ≤ 512)%nat ∧
      title = JsString.slice0 64 description
  | None =>
      mediaType ≠ video ∨ text = None ∨ (∃ t, text = Some t ∧ Js.trim t = "")
  end.
Proof.
  unfold caption.
  destruct mediaType; try (left; discriminate).
  destruct text as [t|]; cbn -[JsString.slice0 Js.trim]; [|by right; left].
  destruct (Js.truthy_string (Js.trim t)) eqn:Ht.
  - apply truthy_string_true in Ht. split; [done|]. split; [by exists t|].
    split; [by destruct (Js.trim t)|].
    split; [apply slice0_length|]. split; [apply slice0_length|].
    symmetry. apply slice0_slice0. lia.
  - apply truthy_string_false in Ht. right. right. by exists t.
Qed.


End OutboundPure.

Section OutboundFlows.
Import Outbound.
Context {Cfg To Agent Buffer : Type}.
#[local] Abbreviation Env := (@Env Cfg To Agent Buffer).

Lemma guards_run (env : Env) (cfg : Cfg) (to : To) {A} (k : Agent → WecomTarget → M A) :
  bind (resolveAgentConfigOrThrow env cfg)
       (λ agent, bind (resolveTargetOrThrow env to) (λ target, k agent target)) =
  match resolveAgent env cfg with
  | Some agent =>
      if configured env agent then
        match resolveWecomTarget env to with
        | Some target =>
            if Js.truthy_opt_string (chatid target)
            then ([], inl (ChatIdUnsupported (default "" (chatid target))))
            else k agent target
        | None => ([], inl TargetMissing)
        end
      else ([], inl AgentNotConfigured)
  | None => ([], inl AgentNotConfigured)
  end.
Proof.
  unfold resolveAgentConfigOrThrow, resolveTargetOrThrow, bind, ret, throw.
  destruct (resolveAgent env cfg) as [agent|]; [|done].
  destruct (configured env agent); [|done].
  destruct (resolveWecomTarget env to) as [target|]; [|done].
  destruct (chatid target) as [c|]; simpl.
  - destruct (Js.truthy_string c); simpl; [done|]. by destruct (k agent target).
  - by destruct (k agent target).
Qed.

(** X22: [sendText] calls the agent API at most once, and only when the
    agent account is configured, the target resolves and names no chat
    id; the request carries the user, party and tag of the target and the
    text as given. The checks fail in that order, before any call; a
    failure of the API call is passed on; a receipt is returned only after
    a call that succeeded, with channel ["wecom"]. *)
Theorem sendText_guarded (env : Env) (clock : nat → Z) (cfg : Cfg) (to : To)
    (text : string) :
  let r := sendText env clock cfg to text in
  (r.1 = [] ∨
   ∃ agent target,
     guards_pass env cfg to agent target ∧
     r.1 = [CallSendText (mkTextRequest agent (touser target) (toparty target)
                            (totag target) (chatid target) text)]) ∧
  (∀ receipt, r.2 = inr receipt →
     ∃ req, r.1 = [CallSendText req] ∧ sendAgentText env req = None ∧
            receipt = mkReceipt "wecom" ("agent-" +:+ pretty (clock 0%nat))
                        (clock 1%nat)) ∧
  (∀ req err, r.1 = [CallSendText req] → sendAgentText env req = Some err →
     r.2 = inl (Collaborator err)) ∧
  (r.2 = inl AgentNotConfigured ↔
     ∀ agent, resolveAgent env cfg = Some agent → configured env agent = false) ∧
  (∀ c, r.2 = inl (ChatIdUnsupported c) → r.1 = []).
Proof.
  intros r. unfold r, sendText. rewrite guards_run.
  unfold guards_pass, perform, ret, bind, unit_result.
  destruct (resolveAgent env cfg) as [agent|] eqn:Ha; simpl.
  2:{ split; [by left|]. split; [done|]. split; [done|]. split; [|done].
      split; [by intros _ ? [=]|done]. }
  destruct (configured env agent) eqn:Hc; simpl.
  2:{ split; [by left|]. split; [done|]. split; [done|]. split; [|done].
      split; [by intros _ ? [= <-]|done]. }
  assert (Hnot : ¬ ∀ agent0, Some agent = Some agent0 → configured env agent0 = false).
  { intros Hall. specialize (Hall agent eq_refl). congruence. }
  destruct (resolveWecomTarget env to) as [target|] eqn:Ht; simpl.
  2:{ split; [by left|]. split; [done|]. split; [done|]. split; [|done].
      split; [done|by intros ?%Hnot]. }
  destruct (Js.truthy_opt_string (chatid target)) eqn:Hch; simpl.
  { split; [by left|]. split; [done|]. split; [done|]. split; [|done].
    split; [done|by intros ?%Hnot]. }
  set (req := mkTextRequest _ _ _ _ _ _).
  destruct (sendAgentText env req) as [err|] eqn:Hs; simpl;
    (split; [right; exists agent, target; done|]).
  - split; [done|]. split; [intros req' err' [= <-]; congruence|].
    split; [|done]. split; [done|by intros ?%Hnot].
  - split; [intros receipt [= <-]; by exists req|].
    split; [intros req' err' [= <-]; congruence|].
    split; [|done]. split; [done|by intros ?%Hnot].
Qed.

Lemma loadRemote_calls (env : Env) url :
  (loadRemote env url).1 = [CallFetch url].
Proof.
  unfold loadRemote, bind, perform, lift.
  destruct (fetch env url) as [e|res]; simpl; [done|].
  destruct (negb (ok res)); simpl; [done|].
  destruct (arrayBuffer res); simpl; [done|].
  by destruct (urlPathname env url).
Qed.

Lemma loadLocal_calls (env : Env) url :
  (loadLocal env url).1 = [CallReadFile url].
Proof.
  unfold loadLocal, bind, perform.
  destruct (readFile env url); simpl; [done|].
  by destruct (localContentType _).
Qed.

Lemma load_calls (env : Env) url :
  (if isRemoteUrl url then loadRemote env url else loadLocal env url).1 = [load_call url].
Proof.
  unfold load_call. destruct (isRemoteUrl url).
  - apply loadRemote_calls.
  - apply loadLocal_calls.
Qed.

(** X23: [sendMedia] makes no call unless the agent account is
    configured, the target resolves and names no chat id, and a media URL
    is given. Its calls come in one order: the download of a remote URL or
    the read of a local path, never both; then the upload; then the send
    of the media message, which carries the media id that upload returned
    and the media type it was uploaded as. A receipt is returned only
    after the three of them, the send having succeeded. *)
Theorem sendMedia_ordered (env : Env) (clock : nat → Z) (cfg : Cfg) (to : To)
    (text mediaUrl : option string) :
  let r := sendMedia env clock cfg to text mediaUrl in
  (r.1 ≠ [] →
   ∃ agent target url,
     guards_pass env cfg to agent target ∧ mediaUrl = Some url ∧ url ≠ "" ∧
     (r.1 = [load_call url] ∨
      (∃ up, r.1 = [load_call url; CallUpload up] ∧
             upload_agent up = agent) ∨
      (∃ up req, r.1 = [load_call url; CallUpload up; CallSendMedia req] ∧
                 upload_agent up = agent ∧
                 uploadMedia env up = inr (media_mediaId req) ∧
                 media_mediaType req = upload_type up ∧
                 media_caption req = caption (upload_type up) text ∧
                 media_toUser req = touser target ∧
                 media_toParty req = toparty target ∧
                 media_toTag req = totag target))) ∧
  (∀ receipt, r.2 = inr receipt →
     ∃ url up req,
       r.1 = [load_call url; CallUpload up; CallSendMedia req] ∧
       sendAgentMedia env req = None ∧
       receipt = mkReceipt "wecom" ("agent-media-" +:+ pretty (clock 0%nat))
                   (clock 1%nat)).
Proof.
  intros r. unfold r, sendMedia. rewrite guards_run. unfold guards_pass.
  destruct (resolveAgent env cfg) as [agent|] eqn:Ha; [|done].
  destruct (configured env agent) eqn:Hc; [|done].
  destruct (resolveWecomTarget env to) as [target|] eqn:Ht; [|done].
  destruct (Js.truthy_opt_string (chatid target)) eqn:Hch; [done|].
  destruct mediaUrl as [url|]; [|done].
  destruct (Js.truthy_string url) eqn:Hu; [|done]. simpl.
  apply truthy_string_true in Hu.
  destruct (if isRemoteUrl url then loadRemote env url else loadLocal env url)
    as [calls res] eqn:Hld.
  assert (Hload : calls = [load_call url]).
  { change calls with (calls, res).1. rewrite <- Hld. apply load_calls. }
  subst calls. destruct res as [err|[[buffer contentType] filename]].
  { simpl. split; [|done]. intros _. exists agent, target, url.
    repeat (split; [done|]). by left. }
  unfold bind, perform, ret, unit_result. simpl.
  set (up := mkUploadRequest _ _ _ _).
  destruct (uploadMedia env up) as [err|mediaId] eqn:Hup; simpl.
  { split; [|done]. intros _. exists agent, target, url.
    repeat (split; [done|]). right. left. by exists up. }
  set (req := mkMediaRequest _ _ _ _ _ _ _ _).
  destruct (sendAgentMedia env req) as [err|] eqn:Hs; simpl.
  - split; [|done]. intros _. exists agent, target, url.
    repeat (split; [done|]). right. right. by exists up, req.
  - split.
    + intros _. exists agent, target, url.
      repeat (split; [done|]). right. right. by exists up, req.
    + intros receipt [= <-]. by exists url, up, req.
Qed.

(** X24: a local file whose lower-cased extension is [constructor] or
    [__proto__] is read but never uploaded: the table lookup gives a
    member inherited from [Object.prototype] instead of a content type,
    and [sendMedia] fails with a [TypeError] on [startsWith]. *)
Theorem sendMedia_inherited_extension (env : Env) (clock : nat → Z) (cfg : Cfg)
    (to : To) (text : option string) (url : string) (agent : Agent)
    (target : WecomTarget) (buffer : Buffer) :
  guards_pass env cfg to agent target →
  url ≠ "" →
  isRemoteUrl url = false →
  readFile env url = inr buffer →
  JsString.toLowerCase (JsString.slice1 (extname env url)) = "constructor" ∨
  JsString.toLowerCase (JsString.slice1 (extname env url)) = "__proto__" →
  sendMedia env clock cfg to text (Some url) = ([CallReadFile url], inl NotAFunction).
Proof.
  intros (Ha & Hc & Ht & Hch) Hu Hlocal Hread Hext.
  unfold sendMedia. rewrite guards_run, Ha, Hc, Ht, Hch.
  apply truthy_string_true in Hu. rewrite Hu, Hlocal. simpl.
  unfold loadLocal, bind, perform. rewrite Hread. simpl.
  by destruct Hext as [-> | ->].
Qed.

End OutboundFlows.

(** ** Lifecycle coordinator *)

Section CoordinatorLifecycle.
Context `{WecomTypes}.
Import MonitorState.

(** X17: [startPruning] while a sweep is scheduled changes nothing, so
    the interval of the first call stays; [stopPruning] twice is
    [stopPruning] once; after [stopPruning] a new [startPruning] schedules
    a sweep with its own interval, 60 s by default. Neither touches the
    stores. *)
Theorem pruning_idempotent (m : t) (i1 i2 : option Z) :
  startPruning i2 (startPruning i1 m) = startPruning i1 m ∧
  stopPruning (stopPruning m) = stopPruning m ∧
  pruneInterval (stopPruning m) = None ∧
  pruneInterval (startPruning i1 m) =
    Some (default (default 60000 i1) (pruneInterval m)) ∧
  pruneInterval (startPruning i2 (stopPruning (startPruning i1 m))) =
    Some (default 60000 i2) ∧
  streamStore (startPruning i1 m) = streamStore m ∧
  activeReplyStore (startPruning i1 m) = activeReplyStore m ∧
  streamStore (stopPruning m) = streamStore m ∧
  activeReplyStore (stopPruning m) = activeReplyStore m.
Proof.
  unfold startPruning, stopPruning. destruct m as [ss ars [i|]]; simpl; done.
Qed.

(** X18: after a tick of the sweep at [now], nothing that outlived its
    TTL is left: every stream was updated, and every pending group
    created, at most ten minutes before [now], and every reply address was
    bound at most sixty minutes before [now]. The tick keeps the policy of
    the reply-address store and the schedule. *)
Theorem sweep_leaves_nothing_expired (m : t) (now : Z) :
  let m' := sweep now m in
  (∀ id s, StreamStore.getStream id (streamStore m') = Some s →
           now - StreamState.updatedAt s ≤ LIMITS.STREAM_TTL_MS) ∧
  (∀ key p, StreamStore.pendingInbounds (streamStore m') !! key = Some p →
            now - PendingInbound.createdAt p ≤ LIMITS.STREAM_TTL_MS) ∧
  (∀ sid r, ActiveReplyStore.activeReplies (activeReplyStore m') !! sid = Some r →
            now - ActiveReplyState.createdAt r ≤ LIMITS.ACTIVE_REPLY_TTL_MS) ∧
  ActiveReplyStore.policy (activeReplyStore m') =
    ActiveReplyStore.policy (activeReplyStore m) ∧
  pruneInterval m' = pruneInterval m.
Proof.
  intros m'. unfold m', sweep, StreamStore.getStream. simpl.
  split; [|split; [|split; [|done]]].
  - intros id s Hs. apply prune_streams_lookup in Hs as [_ Hne].
    unfold expired in Hne. lia.
  - intros key p Hp. apply prune_pending_lookup in Hp as [_ Hne].
    unfold stale in Hne. lia.
  - intros sid r Hr. apply reply_prune_lookup in Hr as [_ Hne]. lia.
Qed.

End CoordinatorLifecycle.

(** ** The further properties on the sample data *)

Section MoreScenarios.
Import StreamStore.

Lemma reachable_index_live_witness :
  is_Some (getStream "aa01" (@StreamOps.run Samples.types MoreSamples.flush_run new)).
Proof.
  apply (@reachable_index_live Samples.types MoreSamples.flush_run "m1" "aa01").
  reflexivity.
Defined.

Lemma prune_prune_witness :
  prune 700000 (prune 2000 Samples.one_stream) = prune 700000 Samples.one_stream.
Proof. apply (@prune_prune Samples.types Samples.one_stream 2000 700000). lia. Defined.

Lemma update_then_prune_witness :
  getStream "aa01" (prune 700000 (markFinished "aa01" 200000 Samples.one_stream).1) =
    Some (StreamState.mk "aa01" (Some "m1") 1000 200000 false true "") ∧
  getStream "aa01" (prune 900000 (markFinished "aa01" 200000 Samples.one_stream).1) = None.
Proof.
  split.
  - apply (@update_then_prune Samples.types Samples.one_stream "aa01"
             (StreamState.mk "aa01" (Some "m1") 1000 1000 false false "")
             (StreamState.mk "aa01" (Some "m1") 1000 1000 false true "")
             (λ s, (StreamState.set_finished true s, None)) 200000 700000);
      reflexivity.
  - apply (@update_then_prune Samples.types Samples.one_stream "aa01"
             (StreamState.mk "aa01" (Some "m1") 1000 1000 false false "")
             (StreamState.mk "aa01" (Some "m1") 1000 1000 false true "")
             (λ s, (StreamState.set_finished true s, None)) 200000 900000);
      reflexivity.
Defined.

Lemma unhandled_consistent : timers_consistent MoreSamples.unhandled.
Proof.
  unfold MoreSamples.unhandled. rewrite arrivals_cons.
  apply addPendingMessage_consistent, timers_consistent_new.
Qed.

Lemma flush_without_handler_witness :
  pendingInbounds MoreSamples.unhandled !! "u1" ≠ None ∧
  pendingInbounds (fireTimer 0 MoreSamples.unhandled) !! "u1" = None ∧
  flushed (fireTimer 0 MoreSamples.unhandled) = [] ∧
  flushed (flushPending "u1"
             (@setFlushHandler Samples.types "late" (fireTimer 0 MoreSamples.unhandled))) = [].
Proof.
  destruct (@flush_without_handler Samples.types MoreSamples.unhandled 0%nat
              (mkTimer "u1" 500) unhandled_consistent eq_refl eq_refl)
    as (Hgone & _ & Hfl & Hlate).
  split; [discriminate|]. split; [exact Hgone|]. split; [exact Hfl|].
  exact (Hlate "late").
Defined.

Lemma reachable_flush_payload_witness :
  ∃ p, flushed (@StreamOps.run Samples.types MoreSamples.flush_run new) = [("agent", p)] ∧
       PendingInbound.contents p ≠ [] ∧ PendingInbound.timeout p = None.
Proof.
  eexists. split; [reflexivity|].
  destruct (@reachable_flush_payload Samples.types MoreSamples.flush_run "agent" _
              ltac:(apply list_elem_of_singleton; reflexivity)) as (Hc & _ & Ht).
  exact (conj Hc Ht).
Defined.

Lemma arrivals_grouped_by_key_witness :
  ∃ g, pendingInbounds (StreamOps.arrivals MoreSamples.interleaved Samples.store0).2
         !! "u2" = Some g ∧
       PendingInbound.streamId g = "bb01" ∧
       PendingInbound.contents g = ["ping"; "pong"] ∧
       PendingInbound.msgids g = [].
Proof.
  destruct (@arrivals_grouped_by_key Samples.types Samples.store0 "u2"
              MoreSamples.interleaved store0_consistent eq_refl)
    as (_ & g & Hg & Hs & _ & _ & Hc & Hi).
  exists g. repeat split; assumption.
Defined.

End MoreScenarios.

Section MoreReplyScenarios.
Import ActiveReplyStore.

Lemma reply_prune_ttl_witness :
  getUrl "s1" (prune (1000 + 61 * 60 * 1000)
                 (after (use "s1" Samples.deliverOk 3000000 MoreSamples.bound_multi)))
    = None ∧
  activeReplies (prune (1000 + 60 * 60 * 1000) MoreSamples.bound_multi) !! "s1" =
    Some (ActiveReplyState.mk "https://reply.example/x" None 1000 None None).
Proof.
  split.
  - apply (reply_prune_ttl MoreSamples.bound_multi _ "s1"
             (ActiveReplyState.mk "https://reply.example/x" None 1000 None None)
             Samples.deliverOk 3000000 eq_refl).
    vm_compute. reflexivity.
  - apply (reply_prune_ttl MoreSamples.bound_multi _ "s1"
             (ActiveReplyState.mk "https://reply.example/x" None 1000 None None)
             Samples.deliverOk 0 eq_refl).
    vm_compute. discriminate.
Defined.

Lemma multi_uses_all_resolve_witness :
  map outcome (uses "s1" Samples.deliverOk [2000; 3000; 4000] MoreSamples.bound_multi) =
    [Resolved; Resolved; Resolved] ∧
  map (λ u, ActiveReplyState.usedAt <$> activeReplies (after u) !! "s1")
      (uses "s1" Samples.deliverOk [2000; 3000; 4000] MoreSamples.bound_multi) =
    [Some (Some 2000); Some (Some 3000); Some (Some 4000)].
Proof.
  destruct (multi_uses_all_resolve MoreSamples.bound_multi "s1"
              (ActiveReplyState.mk "https://reply.example/x" None 1000 None None)
              Samples.deliverOk [2000; 3000; 4000] eq_refl eq_refl
              ltac:(discriminate) eq_refl) as (_ & Ho & _ & Hu).
  exact (conj Ho Hu).
Defined.

Lemma once_no_second_delivery_witness :
  Forall (λ d, d.1 ≠ "s1")
    (deliveries [ReplyOps.OpUse "s1" Samples.deliverOk 3000;
                 ReplyOps.OpStore "s2" (Some "https://reply.example/y") None 3500;
                 ReplyOps.OpUse "s2" Samples.deliverOk 3600;
                 ReplyOps.OpPrune 4000;
                 ReplyOps.OpUse "s1" Samples.deliverFail 5000]
                MoreSamples.used_once).
Proof.
  apply Forall_forall. intros [sid call] Hin Hsid. simpl in Hsid. subst sid.
  revert Hin.
  apply (once_no_second_delivery MoreSamples.used_once "s1"
           (ActiveReplyState.mk "https://reply.example/x" None 1000 (Some 2000) None)
           _ eq_refl eq_refl eq_refl).
  repeat constructor; simpl; try tauto. discriminate.
Defined.

End MoreReplyScenarios.

Section OutboundScenarios.
Import Outbound.

Example sendText_sample :
  sendText MoreSamples.env (λ n, 1700000000000 + Z.of_nat n) () "zhangsan" "hi" =
    ([CallSendText (mkTextRequest "agent1" (Some "zhangsan") None None None "hi")],
     inr (mkReceipt "wecom" "agent-1700000000000" 1700000000001)).
Proof. vm_compute. reflexivity. Qed.

Example sendMedia_remote_down :
  sendMedia MoreSamples.env (λ _, 0) () "zhangsan" None (Some "https://example.com/a.png") =
    ([CallFetch "https://example.com/a.png"],
     inl (Collaborator (Js.ErrorObject "fetch failed"))).
Proof. vm_compute. reflexivity. Qed.

Lemma sendMedia_inherited_extension_witness :
  sendMedia MoreSamples.env (λ _, 0) () "zhangsan" None (Some "/tmp/x.constructor") =
    ([CallReadFile "/tmp/x.constructor"], inl NotAFunction).
Proof.
  apply (sendMedia_inherited_extension MoreSamples.env (λ _, 0) () "zhangsan" None
           "/tmp/x.constructor" "agent1" (mkTarget (Some "zhangsan") None None None)
           "bytes").
  - repeat split.
  - discriminate.
  - reflexivity.
  - reflexivity.
  - left. reflexivity.
Defined.

End OutboundScenarios.
